(** * Turing: a single-tape Turing machine simulator (src/Turing.py)

    Shallow embedding of [TuringCommand], [TuringState] and [TuringMachine]
    and the properties of the machine model: tape growth, the bounds
    invariant, halting, parsing and validation.

    Conventions of the embedding:
    - a Python [str] is a [string] and a character is an [ascii], so the
      embedding covers texts over one-byte characters and [len] counts
      those;
    - a Python [int] is a [Z];
    - a Python [list[str]] is a mutable object: it lives in a store of
      lists and is passed around by reference ([loc]), because
      [TuringState] keeps the very list it is given and writes into it;
    - the [programm] dict is a [gmap] from (state, symbol) to commands;
    - a raised exception is the [Raise] outcome; the store keeps whatever
      was written before the exception. *)

From stdpp Require Import gmap strings list pretty.
From Stdlib Require Import ZArith Ascii.

Local Open Scope Z_scope.

(** ** The Python primitives the source relies on *)

Module Py.

Inductive exn : Type :=
| ValueError (msg : string)
| IndexError (msg : string)
| AssertionError.

Inductive outcome (A : Type) : Type :=
| Ok (a : A)
| Raise (e : exn).
Arguments Ok {A} a.
Arguments Raise {A} e.

(** The text of an exception, as [str(e)] gives it. *)
Definition message (e : exn) : string :=
  match e with
  | ValueError msg => msg
  | IndexError msg => msg
  | AssertionError => ""
  end.

Definition len (s : string) : nat := String.length s.

(** [s.split(sep)] for a one-character separator: every occurrence of
    [sep] cuts, empty fields are kept, and the result is never empty. *)
Fixpoint split (sep : ascii) (s : string) : list string :=
  match s with
  | EmptyString => [EmptyString]
  | String c s' =>
      if decide (c = sep) then EmptyString :: split sep s'
      else match split sep s' with
           | [] => [String c EmptyString]
           | w :: ws => String c w :: ws
           end
  end.

(** [''.join(l)] *)
Definition join (l : list string) : string := foldr String.app "" l.

(** [s * n]; a negative [n] gives the empty string. *)
Definition times (s : string) (n : Z) : string :=
  join (replicate (Z.to_nat n) s).

(** [sub in s] on strings. *)
Fixpoint contains (sub s : string) : bool :=
  String.prefix sub s ||
  match s with
  | EmptyString => false
  | String _ s' => contains sub s'
  end.

(** Index normalisation of [l[i]]: indices [-len(l) .. -1] count from the
    end, anything outside [-len(l) .. len(l)-1] is an [IndexError]. *)
Definition norm_index (n : nat) (i : Z) : option nat :=
  if decide (0 <= i < Z.of_nat n) then Some (Z.to_nat i)
  else if decide (- Z.of_nat n <= i < 0) then Some (Z.to_nat (i + Z.of_nat n))
  else None.

(** The message of the [ValueError] the interpreter raises when a
    sequence of [got] values is unpacked into [expected] names
    (CPython 3.10 to 3.13, the versions with [match] statements). *)
Definition unpack_error (expected got : nat) : exn :=
  if decide (got < expected)%nat
  then ValueError ("not enough values to unpack (expected " +:+ pretty expected
                     +:+ ", got " +:+ pretty got +:+ ")")
  else ValueError ("too many values to unpack (expected " +:+ pretty expected +:+ ")").

End Py.
Import Py.

(** ** Module constants *)

Definition EMPTY : string := "b".
Definition START_STATE : string := "Q0".

(** The three moves [L = -1], [R = 1], [S = 0]. *)
Module Move.
Definition L : Z := -1.
Definition R : Z := 1.
Definition S : Z := 0.
End Move.

(** ** class TuringCommand *)

Module TuringCommand.

Record t : Type := mk {
  inp_state : string;
  inp_symbol : string;
  ret_state : string;
  ret_symbol : string;
  ret_move : Z
}.

(** [__post_init__]: the validation the dataclass runs after storing
    the fields. *)
Definition post_init (self : t) : outcome t :=
  if decide (len (inp_symbol self) ≠ 1%nat) then
    Raise (ValueError ("Symbols need to have length one, but inp_symbol is "
                         +:+ inp_symbol self +:+ " with length "
                         +:+ pretty (len (inp_symbol self)) +:+ "."))
  else if decide (len (ret_symbol self) ≠ 1%nat) then
    Raise (ValueError ("Symbols need to have length one, but ret_symbol is "
                         +:+ ret_symbol self +:+ " with length "
                         +:+ pretty (len (ret_symbol self)) +:+ "."))
  else if decide (ret_move self ∉ [Move.L; Move.R; Move.S]) then
    Raise (ValueError ("ret_moves needs to be either L=-1, R=1 or S=0, but is "
                         +:+ pretty (ret_move self) +:+ "."))
  else Ok self.

(** The constructor call [TuringCommand(a, b, c, d, m)]. *)
Definition new (inp_state inp_symbol ret_state ret_symbol : string)
    (ret_move : Z) : outcome t :=
  post_init (mk inp_state inp_symbol ret_state ret_symbol ret_move).

(** [TuringCommand.parse(text)] *)
Definition parse (text : string) : outcome t :=
  match split " "%char text with
  | [inp_state; inp_symbol; ret_state; ret_symbol; ret_move_str] =>
      match
        (if decide (ret_move_str = "L") then Ok Move.L
         else if decide (ret_move_str = "R") then Ok Move.R
         else if decide (ret_move_str = "S") then Ok Move.S
         else
           Raise (ValueError
                    ("The move of a command needs to be saved as either 'L', 'R' or 'S', but tried to parse '"
                       +:+ ret_move_str +:+ "' in command '" +:+ text +:+ "'.")))
      with
      | Ok ret_move => new inp_state inp_symbol ret_state ret_symbol ret_move
      | Raise e => Raise e
      end
  | fields => Raise (unpack_error 5 (length fields))
  end.

End TuringCommand.

(** ** The store of list objects and the output channel *)

(** A reference to a list object. *)
Definition loc : Type := nat.

(** [lists] holds the list objects allocated so far (newest last);
    [stdout] is what [print] has written, one entry per call. *)
Record world : Type := World {
  lists : list (list string);
  stdout : list string
}.

(** Computations that read and write the world and may raise. The world
    after a [Raise] is the one the exception left behind. *)
Definition M (A : Type) : Type := world → outcome A * world.

Definition ret {A} (a : A) : M A := λ w, (Ok a, w).
Definition raise {A} (e : exn) : M A := λ w, (Raise e, w).
Definition bind {A B} (m : M A) (k : A → M B) : M B :=
  λ w, match m w with
       | (Ok a, w') => k a w'
       | (Raise e, w') => (Raise e, w')
       end.

Notation "'let*' x ':=' m 'in' k" := (bind m (λ x, k))
  (at level 10, x pattern, m at level 100, k at level 200).

(** The list a reference points to. *)
Definition deref (l : loc) (w : world) : list string := lists w !!! l.

(** The items of a list object, as a list expression reads them. *)
Definition list_items (l : loc) : M (list string) := λ w, (Ok (deref l w), w).

(** [len(l)] *)
Definition list_len (l : loc) : M nat := λ w, (Ok (length (deref l w)), w).

(** [l[i]] *)
Definition list_getitem (l : loc) (i : Z) : M string :=
  λ w, match norm_index (length (deref l w)) i with
       | Some j => match deref l w !! j with
                   | Some x => (Ok x, w)
                   | None => (Raise (IndexError "list index out of range"), w)
                   end
       | None => (Raise (IndexError "list index out of range"), w)
       end.

(** [l[i] = x]: the list object itself is updated, so every holder of the
    reference sees the new cell. *)
Definition list_setitem (l : loc) (i : Z) (x : string) : M unit :=
  λ w, match norm_index (length (deref l w)) i with
       | Some j =>
           (Ok (), World (<[l := <[j := x]> (deref l w)]> (lists w)) (stdout w))
       | None => (Raise (IndexError "list assignment index out of range"), w)
       end.

(** A list expression that builds a new list object, such as [a + b]. *)
Definition list_new (content : list string) : M loc :=
  λ w, (Ok (length (lists w)), World (lists w ++ [content]) (stdout w)).

(** [print(s)] *)
Definition print (s : string) : M unit :=
  λ w, (Ok (), World (lists w) (stdout w ++ [s])).

(** ** class TuringState *)

Module TuringState.

Record t : Type := mk {
  tape : loc;
  position : Z;
  offset : Z;
  state : string
}.

(** The property [symbol]: [self.tape[self.position + self.offset]]. *)
Definition symbol (self : t) : M string :=
  list_getitem (tape self) (position self + offset self).

(** [execute_command]; the result is [self] after the call. *)
Definition execute_command (self : t) (command : TuringCommand.t) : M t :=
  if decide (state self = TuringCommand.inp_state command) then
    let* sym := symbol self in
    if decide (sym = TuringCommand.inp_symbol command) then
      let* _ := list_setitem (tape self) (position self + offset self)
            (TuringCommand.ret_symbol command) in
      let self := mk (tape self) (position self) (offset self)
                     (TuringCommand.ret_state command) in
      let self := mk (tape self) (position self + TuringCommand.ret_move command)
                     (offset self) (state self) in
      let* self := (if decide (position self + offset self < 0) then
                let self := mk (tape self) (position self) (offset self + 1)
                               (state self) in
                let* old := list_items (tape self) in
                let* new := list_new ([EMPTY] ++ old) in
                ret (mk new (position self) (offset self) (state self))
              else
                let* n := list_len (tape self) in
                if decide (position self + offset self >= Z.of_nat n) then
                  let* old := list_items (tape self) in
                  let* new := list_new (old ++ [EMPTY]) in
                  ret (mk new (position self) (offset self) (state self))
                else ret self) in
      let* n := list_len (tape self) in
      if decide (0 <= position self + offset self < Z.of_nat n) then ret self
      else raise AssertionError
    else
      let* cur := symbol self in
      raise (ValueError ("Command requires symbol " +:+ TuringCommand.inp_symbol command
                           +:+ ", but current symbol is " +:+ cur +:+ "."))
  else
    raise (ValueError ("Command requires state " +:+ TuringCommand.inp_state command
                         +:+ ", but current state is " +:+ state self +:+ ".")).

(** [__str__] *)
Definition str (self : t) : M string :=
  λ w, (Ok (join (deref (tape self) w) +:+ String "010" ""
              +:+ times " " (position self + offset self) +:+ "^" +:+ state self), w).

End TuringState.

(** ** class TuringMachine *)

Module TuringMachine.

Record t : Type := mk {
  programm : gmap (string * string) TuringCommand.t
}.

(** The body of the [for line in lines] loop of [parse], with the dict
    built so far. *)
Fixpoint parse_lines (programm : gmap (string * string) TuringCommand.t)
    (lines : list string) : outcome (gmap (string * string) TuringCommand.t) :=
  match lines with
  | [] => Ok programm
  | line :: lines =>
      if decide (len line ≠ 0%nat) then
        match TuringCommand.parse line with
        | Ok command =>
            parse_lines
              (<[(TuringCommand.inp_state command, TuringCommand.inp_symbol command)
                 := command]> programm) lines
        | Raise e => Raise e
        end
      else parse_lines programm lines
  end.

(** [TuringMachine.parse(text)] *)
Definition parse (text : string) : outcome t :=
  match parse_lines ∅ (split "010"%char text) with
  | Ok programm => Ok (mk programm)
  | Raise e => Raise e
  end.

(** [single_step]; the result is the returned bool and [turing_state]
    after the call. *)
Definition single_step (self : t) (turing_state : TuringState.t)
    : M (bool * TuringState.t) :=
  let state := TuringState.state turing_state in
  let* symbol := TuringState.symbol turing_state in
  match programm self !! (state, symbol) with
  | Some command =>
      let* turing_state := TuringState.execute_command turing_state command in
      ret (true, turing_state)
  | None => ret (false, turing_state)
  end.

(** The [while run] loop of [run]. The loop has no bound in the source;
    [fuel] bounds the number of iterations and [None] means that the
    bound was reached with the loop still running. *)
Fixpoint run_loop (fuel : nat) (self : t) (debug_strength : Z)
    (turing_state : TuringState.t) (w : world)
    : option (outcome TuringState.t * world) :=
  match fuel with
  | O => None
  | S fuel =>
      match (if decide (debug_strength >= 2)
             then (let* s := TuringState.str turing_state in print s)
             else ret ()) w with
      | (Raise e, w) => Some (Raise e, w)
      | (Ok _, w) =>
          match single_step self turing_state w with
          | (Raise e, w) => Some (Raise e, w)
          | (Ok (true, turing_state), w) =>
              run_loop fuel self debug_strength turing_state w
          | (Ok (false, turing_state), w) => Some (Ok turing_state, w)
          end
      end
  end.

(** [run(tape, start_state, debug_strength)]: returns the pair
    (reference to the final tape, final state). *)
Definition run (fuel : nat) (self : t) (tape : loc) (start_state : string)
    (debug_strength : Z) (w : world)
    : option (outcome (loc * string) * world) :=
  let turing_state := TuringState.mk tape 0 0 start_state in
  match run_loop fuel self debug_strength turing_state w with
  | None => None
  | Some (Raise e, w) => Some (Raise e, w)
  | Some (Ok turing_state, w) =>
      Some ((if decide (debug_strength >= 1)
             then (let* _ := print ("Program finished on state "
                                +:+ TuringState.state turing_state
                                +:+ " and tape: " +:+ String "010" ""
                                +:+ join (deref (TuringState.tape turing_state) w)) in
                   ret (TuringState.tape turing_state, TuringState.state turing_state))
             else ret (TuringState.tape turing_state, TuringState.state turing_state)) w)
  end.

End TuringMachine.

(** ** Predicates of the data model *)

(** The bounds invariant of an execution state: the head is on a cell of
    the list that [tape] refers to. *)
Definition bounds_inv (ts : TuringState.t) (w : world) : Prop :=
  0 <= TuringState.position ts + TuringState.offset ts
    < Z.of_nat (length (deref (TuringState.tape ts) w)).

(** A command object that went through [__post_init__]. *)
Definition constructed (c : TuringCommand.t) : Prop :=
  TuringCommand.post_init c = Ok c.

(** The precondition of [execute_command]: the command is for the current
    state and for the symbol under the head. *)
Definition matches (c : TuringCommand.t) (ts : TuringState.t) (w : world) : Prop :=
  TuringState.state ts = TuringCommand.inp_state c
  ∧ TuringState.symbol ts w = (Ok (TuringCommand.inp_symbol c), w).

(** The physical index of the head. *)
Definition head (ts : TuringState.t) : Z :=
  TuringState.position ts + TuringState.offset ts.

(** The tape after the write of [execute_command]: the cell under the
    head overwritten with the command's [ret_symbol]. *)
Definition written (ts : TuringState.t) (c : TuringCommand.t) (w : world)
    : list string :=
  <[Z.to_nat (head ts) := TuringCommand.ret_symbol c]>
    (deref (TuringState.tape ts) w).

(** The key under which [TuringMachine.parse] files a command. *)
Definition key (c : TuringCommand.t) : string * string :=
  (TuringCommand.inp_state c, TuringCommand.inp_symbol c).

(** The invariant of a program table: every entry sits under its own
    (state, symbol) pair. *)
Definition well_keyed (p : gmap (string * string) TuringCommand.t) : Prop :=
  ∀ k c, p !! k = Some c → key c = k.

(** Every entry of the table is a command object that passed
    [__post_init__]. *)
Definition all_constructed (p : gmap (string * string) TuringCommand.t) : Prop :=
  ∀ k c, p !! k = Some c → constructed c.

(** [steps tm n s s']: [n] calls of [single_step] that each return [True]
    lead from [s] to [s']. *)
Inductive steps (tm : TuringMachine.t)
    : nat → TuringState.t * world → TuringState.t * world → Prop :=
| steps_O s : steps tm 0 s s
| steps_S n ts w ts1 w1 s' :
    TuringMachine.single_step tm ts w = (Ok (true, ts1), w1) →
    steps tm n (ts1, w1) s' →
    steps tm (S n) (ts, w) s'.

(** What a caller holds after a call that may not return: the outcome and
    the store of lists, without the printed output. *)
Definition observable {A} (r : option (outcome A * world))
    : option (outcome A * list (list string)) :=
  match r with
  | Some (o, w) => Some (o, lists w)
  | None => None
  end.

(** The value of a result of [run]: the items of the returned tape and
    the returned state, or the exception. *)
Definition value_of (r : option (outcome (loc * string) * world))
    : option (outcome (list string * string)) :=
  match r with
  | Some (Ok (l, s), w) => Some (Ok (deref l w, s))
  | Some (Raise e, _) => Some (Raise e)
  | None => None
  end.

(** A computation that prints nothing and does not look at the output. *)
Definition silent {A} (m : M A) : Prop :=
  ∀ h, ∃ r h', ∀ o, m (World h o) = (r, World h' o).

(** What an execution state is, apart from where its tape is stored: the
    items of the tape, the position, the offset and the state. *)
Definition view (ts : TuringState.t) (w : world) : list string * Z * Z * string :=
  (deref (TuringState.tape ts) w, TuringState.position ts,
   TuringState.offset ts, TuringState.state ts).

Definition view_outcome (r : outcome TuringState.t * world)
    : outcome (list string * Z * Z * string) :=
  match r with
  | (Ok ts, w) => Ok (view ts w)
  | (Raise e, _) => Raise e
  end.

Definition view_step (r : outcome (bool * TuringState.t) * world)
    : outcome (bool * (list string * Z * Z * string)) :=
  match r with
  | (Ok (b, ts), w) => Ok (b, view ts w)
  | (Raise e, _) => Raise e
  end.

Definition view_loop (r : option (outcome TuringState.t * world))
    : option (outcome (list string * Z * Z * string)) :=
  match r with
  | Some r => Some (view_outcome r)
  | None => None
  end.

(** The machine and the start of the run used to show what a second run
    on the same list object does: one command, [Q0 0 Q1 1 S]. *)
Definition flip_machine : TuringMachine.t :=
  TuringMachine.mk {[ ("Q0", "0") := TuringCommand.mk "Q0" "0" "Q1" "1" Move.S ]}.

(** The lines of a program text, as [TuringMachine.parse] cuts them. *)
Definition lines_of (text : string) : list string := split "010"%char text.

(** The program text format in the words of the specification: a line is
    well formed when it has exactly five fields separated by single
    spaces, the two symbol fields are one character long and the move
    code is [L], [R] or [S]. *)
Definition well_formed_line (line : string) : bool :=
  match split " "%char line with
  | [_; inp_symbol; _; ret_symbol; move_code] =>
      bool_decide (len inp_symbol = 1%nat) && bool_decide (len ret_symbol = 1%nat)
      && bool_decide (move_code ∈ ["L"; "R"; "S"])
  | _ => false
  end.

(** A malformed line in the words of the specification: it does not split
    into exactly five fields, or its move code is not recognised. *)
Definition malformed_line (line : string) : bool :=
  match split " "%char line with
  | [_; _; _; _; move_code] => negb (bool_decide (move_code ∈ ["L"; "R"; "S"]))
  | _ => true
  end.

(** The last command of a list with a given key, if any. *)
Definition last_with_key (k : string * string) (cmds : list TuringCommand.t)
    : option TuringCommand.t :=
  last (filter (λ c, key c = k) cmds).

(** The machine of the doctest of [single_step]: one command,
    [Q1 0 Q2 1 R]. *)
Definition doctest_machine : TuringMachine.t :=
  TuringMachine.mk {[ ("Q1", "0") := TuringCommand.mk "Q1" "0" "Q2" "1" Move.R ]}.

(** A two-line program text whose second line has the move code [X]. *)
Definition bad_move_text : string :=
  "Q0 0 Q1 1 L" +:+ String "010" "" +:+ "Q0 0 Q1 1 X".

(** A program text with a blank line and two lines for the key (Q0, 0). *)
Definition overwrite_text : string :=
  "Q0 0 Q1 1 L" +:+ String "010" "" +:+ String "010" "" +:+ "Q0 0 Q2 0 R".

(** A world with one list object, at reference 0, and nothing printed. *)
Definition world0 (tape : list string) : world := World [tape] [].

(** ** Definitions for the further properties *)

(** Whether a character occurs in a string. *)
Fixpoint has_char (c : ascii) (s : string) : bool :=
  match s with
  | EmptyString => false
  | String c' s' => bool_decide (c' = c) || has_char c s'
  end.

(** [sep.join(l)], the inverse of [split]. *)
Fixpoint join_with (sep : string) (l : list string) : string :=
  match l with
  | [] => ""
  | x :: l' =>
      match l' with
      | [] => x
      | _ :: _ => x +:+ sep +:+ join_with sep l'
      end
  end.

(** The move code of the program text format for a move. *)
Definition move_code (m : Z) : string :=
  if decide (m = Move.L) then "L" else if decide (m = Move.R) then "R" else "S".

(** The line of the program text format for a command: the five fields
    separated by single spaces. *)
Definition unparse (c : TuringCommand.t) : string :=
  TuringCommand.inp_state c +:+ " " +:+ TuringCommand.inp_symbol c +:+ " "
    +:+ TuringCommand.ret_state c +:+ " " +:+ TuringCommand.ret_symbol c +:+ " "
    +:+ move_code (TuringCommand.ret_move c).

(** No field of the command holds a space: the state names are free of
    spaces and neither symbol is the space. *)
Definition space_free (c : TuringCommand.t) : Prop :=
  has_char " " (TuringCommand.inp_state c) = false
  ∧ has_char " " (TuringCommand.ret_state c) = false
  ∧ TuringCommand.inp_symbol c ≠ " "
  ∧ TuringCommand.ret_symbol c ≠ " ".

(** How far one step, or [k] steps, can move an execution state: the
    offset grows by at most [k], the tape by at most [k] cells and by at
    least as many as the offset, and the position moves by at most [k]. *)
Definition within (k : Z) (ts : TuringState.t) (w : world)
    (ts' : TuringState.t) (w' : world) : Prop :=
  TuringState.offset ts <= TuringState.offset ts' <= TuringState.offset ts + k
  ∧ Z.of_nat (length (deref (TuringState.tape ts) w))
      + (TuringState.offset ts' - TuringState.offset ts)
    <= Z.of_nat (length (deref (TuringState.tape ts') w'))
    <= Z.of_nat (length (deref (TuringState.tape ts) w)) + k
  ∧ TuringState.position ts - k <= TuringState.position ts'
    <= TuringState.position ts + k.

(** The symbols a machine can put on a tape: the blank and the
    [ret_symbol]s of its table. *)
Definition writable (tm : TuringMachine.t) (x : string) : Prop :=
  x = EMPTY
  ∨ ∃ k c, TuringMachine.programm tm !! k = Some c
           ∧ x = TuringCommand.ret_symbol c.

(** The line that [run] prints after the loop when [debug_strength >= 1]. *)
Definition finished_line (final_state : string) (tape : list string) : string :=
  "Program finished on state " +:+ final_state +:+ " and tape: "
    +:+ String "010" "" +:+ join tape.

(** The text that [print(turing_state)] writes for a state. *)
Definition rendering (ts : TuringState.t) (w : world) : string :=
  join (deref (TuringState.tape ts) w) +:+ String "010" ""
    +:+ times " " (TuringState.position ts + TuringState.offset ts)
    +:+ "^" +:+ TuringState.state ts.

(** ** The callers in src/Sheet_5.py

    The program text comes from a file that is read whole; the embedding
    takes the text read as an argument. *)

(** [list(s)] for a string: a new list object with one item per
    character. *)
Fixpoint chars (s : string) : list string :=
  match s with
  | EmptyString => []
  | String c s' => String c "" :: chars s'
  end.

Definition list_of_str (s : string) : M loc := list_new (chars s).

(** [format(c, 'b')]: the binary digits of a number, most significant
    first, ["0"] for zero. *)
Fixpoint bits (p : positive) : string :=
  match p with
  | xH => "1"
  | xO p => bits p +:+ "0"
  | xI p => bits p +:+ "1"
  end.

Definition format_b (c : N) : string :=
  match c with
  | N0 => "0"
  | Npos p => bits p
  end.

(** [range(n)] *)
Definition range (n : nat) : list N := N.of_nat <$> seq 0 n.

Module Sheet_5.

(** The line that the loops of [ex1] and [ex3] print for an input. *)
Definition halted_line (tape_str final_state : string) : string :=
  "Input " +:+ tape_str +:+ " halted in state " +:+ final_state +:+ ".".

(** The body of the [for tape_str in tape_strs] loop of [ex1] and [ex3];
    [fuel] bounds the loop of the call of [run]. *)
Definition loop_body (fuel : nat) (machine : TuringMachine.t) (tape_str : string)
    (w : world) : option (outcome unit * world) :=
  match list_of_str tape_str w with
  | (Raise e, w) => Some (Raise e, w)
  | (Ok tape, w) =>
      match TuringMachine.run fuel machine tape START_STATE 0 w with
      | None => None
      | Some (Raise e, w) => Some (Raise e, w)
      | Some (Ok (ret_tape, final_state), w) =>
          Some (print (halted_line tape_str final_state) w)
      end
  end.

(** The [for tape_str in tape_strs] loop. *)
Fixpoint loop (fuel : nat) (machine : TuringMachine.t) (tape_strs : list string)
    (w : world) : option (outcome unit * world) :=
  match tape_strs with
  | [] => Some (Ok (), w)
  | tape_str :: tape_strs =>
      match loop_body fuel machine tape_str w with
      | None => None
      | Some (Raise e, w) => Some (Raise e, w)
      | Some (Ok _, w) => loop fuel machine tape_strs w
      end
  end.

(** [ex1()], given the text of Programs/Sheet_5/Ex1.tur. *)
Definition ex1 (fuel : nat) (text : string) (w : world)
    : option (outcome unit * world) :=
  match TuringMachine.parse text with
  | Raise e => Some (Raise e, w)
  | Ok machine => loop fuel machine ["11"; "1010"; "1001"; "100101"] w
  end.

(** [ex3()], given the text of Programs/Sheet_5/Ex3.tur. *)
Definition ex3 (fuel : nat) (text : string) (w : world)
    : option (outcome unit * world) :=
  match TuringMachine.parse text with
  | Raise e => Some (Raise e, w)
  | Ok machine => loop fuel machine ["11"; "00000111111"; "000000"; "00011110"] w
  end.

(** The body of the [for c in range(1000)] loop of [ex1_div_three]. *)
Definition div_three_body (fuel : nat) (machine : TuringMachine.t) (c : N)
    (w : world) : option (outcome unit * world) :=
  let b := format_b c in
  match list_of_str b w with
  | (Raise e, w) => Some (Raise e, w)
  | (Ok tape, w) =>
      match TuringMachine.run fuel machine tape START_STATE 0 w with
      | None => None
      | Some (Raise e, w) => Some (Raise e, w)
      | Some (Ok (ret_tape, final_state), w) =>
          if decide (c `mod` 3 = 0)%N then
            if decide (final_state = "Qak") then Some (Ok (), w)
            else Some (Raise AssertionError, w)
          else
            if decide (final_state = "Qab") then Some (Ok (), w)
            else Some (Raise AssertionError, w)
      end
  end.

(** The [for c in range(1000)] loop. *)
Fixpoint div_three_loop (fuel : nat) (machine : TuringMachine.t) (cs : list N)
    (w : world) : option (outcome unit * world) :=
  match cs with
  | [] => Some (Ok (), w)
  | c :: cs =>
      match div_three_body fuel machine c w with
      | None => None
      | Some (Raise e, w) => Some (Raise e, w)
      | Some (Ok _, w) => div_three_loop fuel machine cs w
      end
  end.

(** [ex1_div_three()], given the text of Programs/Sheet_5/Ex1.tur. *)
Definition ex1_div_three (fuel : nat) (text : string) (w : world)
    : option (outcome unit * world) :=
  match TuringMachine.parse text with
  | Raise e => Some (Raise e, w)
  | Ok machine =>
      match div_three_loop fuel machine (range 1000) w with
      | None => None
      | Some (Raise e, w) => Some (Raise e, w)
      | Some (Ok _, w) => Some (print "Test successfully completed." w)
      end
  end.

(** [ex2()], given the text of Programs/Sheet_5/Ex2.tur. *)
Definition ex2 (fuel : nat) (text : string) (w : world)
    : option (outcome unit * world) :=
  match TuringMachine.parse text with
  | Raise e => Some (Raise e, w)
  | Ok machine =>
      match list_of_str "010011" w with
      | (Raise e, w) => Some (Raise e, w)
      | (Ok tape, w) =>
          match TuringMachine.run fuel machine tape START_STATE 2 w with
          | None => None
          | Some (Raise e, w) => Some (Raise e, w)
          | Some (Ok (ret_tape, final_state), w) => Some (Ok (), w)
          end
      end
  end.

End Sheet_5.

(** ** The script src/main.py, given the text of Programs/Sheet_4/Ex1.tur *)

Module Main.

Definition main (fuel : nat) (text : string) (w : world)
    : option (outcome unit * world) :=
  match TuringMachine.parse text with
  | Raise e => Some (Raise e, w)
  | Ok machine =>
      match list_of_str "111222111111222" w with
      | (Raise e, w) => Some (Raise e, w)
      | (Ok tape, w) =>
          match TuringMachine.run fuel machine tape START_STATE 1 w with
          | None => None
          | Some (Raise e, w) => Some (Raise e, w)
          | Some (Ok ret_tape, w) => Some (Ok (), w)
          end
      end
  end.

End Main.

(** The final state of a call of [run], or its exception. *)
Definition state_of (r : option (outcome (loc * string) * world))
    : option (outcome string) :=
  match r with
  | Some (Ok (_, s), _) => Some (Ok s)
  | Some (Raise e, _) => Some (Raise e)
  | None => None
  end.

(** What the loop body does for one input when it runs alone, in a store
    with no list and nothing printed: its outcome and what it prints. *)
Definition alone (fuel : nat) (machine : TuringMachine.t) (tape_str : string)
    : option (outcome unit * list string) :=
  match Sheet_5.loop_body fuel machine tape_str (World [] []) with
  | Some (o, w') => Some (o, stdout w')
  | None => None
  end.

(** Outcomes and outputs of calls made one after the other: the first
    call that does not return ends the sequence. *)
Fixpoint chain (rs : list (option (outcome unit * list string)))
    : option (outcome unit * list string) :=
  match rs with
  | [] => Some (Ok (), [])
  | None :: _ => None
  | Some (Raise e, out) :: _ => Some (Raise e, out)
  | Some (Ok _, out) :: rs =>
      match chain rs with
      | None => None
      | Some (o, out') => Some (o, out ++ out')
      end
  end.

(** Hint databases of the proofs below. *)
Create Rewrite HintDb store_len.
Create HintDb silent.

(** * Properties *)

(** ** The doctests of the source, run on the embedding *)

Example parse_ok :
  TuringCommand.parse "Q0 0 Q1 1 L" = Ok (TuringCommand.mk "Q0" "0" "Q1" "1" (-1)).
Proof. vm_compute. reflexivity. Qed.

Example parse_three_fields :
  TuringCommand.parse "Q0 0 Q1"
  = Raise (ValueError "not enough values to unpack (expected 5, got 3)").
Proof. vm_compute. reflexivity. Qed.

Example parse_bad_move :
  TuringCommand.parse "Q0 0 Q1 1 X"
  = Raise (ValueError "The move of a command needs to be saved as either 'L', 'R' or 'S', but tried to parse 'X' in command 'Q0 0 Q1 1 X'.").
Proof. vm_compute. reflexivity. Qed.

Example new_ab :
  TuringCommand.new "Q0" "ab" "Q1" "1" Move.L
  = Raise (ValueError "Symbols need to have length one, but inp_symbol is ab with length 2.").
Proof. vm_compute. reflexivity. Qed.



Example symbol_doctest :
  TuringState.symbol (TuringState.mk 0%nat 2 2 START_STATE)
    (world0 ["-2"; "-1"; "0"; "1"; "2"; "3"])
  = (Ok "2", world0 ["-2"; "-1"; "0"; "1"; "2"; "3"]).
Proof. vm_compute. reflexivity. Qed.

Example execute_command_doctest_inner :
  TuringState.execute_command (TuringState.mk 0%nat 2 2 "Q1")
    (TuringCommand.mk "Q1" "2" "Q2" "3" Move.L)
    (world0 ["-2"; "-1"; "0"; "1"; "2"; "3"])
  = (Ok (TuringState.mk 0%nat 1 2 "Q2"), world0 ["-2"; "-1"; "0"; "1"; "3"; "3"]).
Proof. vm_compute. reflexivity. Qed.

Example execute_command_doctest_left :
  TuringState.execute_command (TuringState.mk 0%nat 0 0 "Q1")
    (TuringCommand.mk "Q1" "0" "Q2" "0" Move.L) (world0 ["0"; "1"])
  = (Ok (TuringState.mk 1%nat (-1) 1 "Q2"), World [["0"; "1"]; ["b"; "0"; "1"]] []).
Proof. vm_compute. reflexivity. Qed.

Example execute_command_doctest_right :
  TuringState.execute_command (TuringState.mk 0%nat 1 0 "Q1")
    (TuringCommand.mk "Q1" "1" "Q2" "1" Move.R) (world0 ["0"; "1"])
  = (Ok (TuringState.mk 1%nat 2 0 "Q2"), World [["0"; "1"]; ["0"; "1"; "b"]] []).
Proof. vm_compute. reflexivity. Qed.

Example single_step_doctest_true :
  TuringMachine.single_step
    (TuringMachine.mk {[ ("Q1", "0") := TuringCommand.mk "Q1" "0" "Q2" "1" Move.R ]})
    (TuringState.mk 0%nat 0 0 "Q1") (world0 ["0"; "1"])
  = (Ok (true, TuringState.mk 0%nat 1 0 "Q2"), world0 ["1"; "1"]).
Proof. vm_compute. reflexivity. Qed.

Example single_step_doctest_false :
  TuringMachine.single_step (TuringMachine.mk ∅)
    (TuringState.mk 0%nat 1 0 "Q2") (world0 ["1"; "1"])
  = (Ok (false, TuringState.mk 0%nat 1 0 "Q2"), world0 ["1"; "1"]).
Proof. vm_compute. reflexivity. Qed.

Example str_example :
  TuringState.str (TuringState.mk 0%nat (-1) 3 "Q1") (world0 ["0"; "1"; "b"])
  = (Ok "01b
  ^Q1", world0 ["0"; "1"; "b"]).
Proof. vm_compute. reflexivity. Qed.

(** ** Basic facts about the store *)

Lemma norm_index_in_range n i :
  0 <= i < Z.of_nat n → norm_index n i = Some (Z.to_nat i).
Proof. intros H. unfold norm_index. by rewrite decide_True. Qed.

Lemma deref_write l j x w o :
  deref l (World (<[l := <[j := x]> (deref l w)]> (lists w)) o)
  = <[j := x]> (deref l w).
Proof.
  unfold deref. simpl.
  destruct (decide (l < length (lists w))%nat) as [Hl|Hl].
  - by rewrite list_lookup_total_insert_eq.
  - rewrite list_insert_ge by lia.
    rewrite (list_lookup_total_alt (lists w)).
    rewrite lookup_ge_None_2 by lia. done.
Qed.

Lemma deref_new h o content :
  deref (length h) (World (h ++ [content]) o) = content.
Proof.
  unfold deref. simpl. rewrite list_lookup_total_middle; done.
Qed.

Lemma bounds_inv_allocated ts w :
  bounds_inv ts w → (TuringState.tape ts < length (lists w))%nat.
Proof.
  unfold bounds_inv, deref. intros H.
  destruct (decide (TuringState.tape ts < length (lists w))%nat) as [|Hn]; [done|].
  rewrite list_lookup_total_alt, lookup_ge_None_2 in H by lia.
  simpl in H. lia.
Qed.

Lemma symbol_in_bounds ts w :
  bounds_inv ts w →
  ∃ x, deref (TuringState.tape ts) w !! Z.to_nat (head ts) = Some x
       ∧ TuringState.symbol ts w = (Ok x, w).
Proof.
  intros H. unfold bounds_inv in H.
  destruct (lookup_lt_is_Some_2 (deref (TuringState.tape ts) w) (Z.to_nat (head ts)))
    as [x Hx]; [unfold head; lia|].
  exists x. split; [done|].
  unfold TuringState.symbol, list_getitem.
  rewrite norm_index_in_range by done. fold (head ts). by rewrite Hx.
Qed.

Lemma constructed_move c :
  constructed c →
  TuringCommand.ret_move c = Move.L ∨ TuringCommand.ret_move c = Move.R
  ∨ TuringCommand.ret_move c = Move.S.
Proof.
  unfold constructed, TuringCommand.post_init. intros H.
  destruct (decide (TuringCommand.ret_move c ∈ [Move.L; Move.R; Move.S])) as [Hin|Hout].
  - repeat (apply elem_of_cons in Hin as [Hin|Hin]; [auto|]).
    by apply elem_of_nil in Hin.
  - exfalso.
    repeat match type of H with
           | context [decide ?P] => destruct (decide P)
           end; try discriminate; contradiction.
Qed.

#[local] Hint Rewrite @length_app @length_insert : store_len.

(** The effect of [execute_command] on a state in bounds whose
    precondition holds, branch by branch. *)
Lemma execute_command_in_bounds ts c w :
  bounds_inv ts w → matches c ts w → constructed c →
  let h := <[TuringState.tape ts := written ts c w]> (lists w) in
  let pos := TuringState.position ts + TuringCommand.ret_move c in
  TuringState.execute_command ts c w =
    if decide (head ts + TuringCommand.ret_move c < 0) then
      (Ok (TuringState.mk (length h) pos (TuringState.offset ts + 1)
             (TuringCommand.ret_state c)),
       World (h ++ [EMPTY :: written ts c w]) (stdout w))
    else if decide (head ts + TuringCommand.ret_move c
                    >= Z.of_nat (length (deref (TuringState.tape ts) w))) then
      (Ok (TuringState.mk (length h) pos (TuringState.offset ts)
             (TuringCommand.ret_state c)),
       World (h ++ [written ts c w ++ [EMPTY]]) (stdout w))
    else
      (Ok (TuringState.mk (TuringState.tape ts) pos (TuringState.offset ts)
             (TuringCommand.ret_state c)),
       World h (stdout w)).
Proof.
  intros Hb [Hst Hsym] Hc. simpl.
  pose proof (constructed_move c Hc) as Hmv.
  unfold TuringState.execute_command.
  rewrite decide_True by done.
  unfold bind at 1. rewrite Hsym. rewrite decide_True by done.
  unfold bind at 1. unfold list_setitem.
  unfold bounds_inv in Hb. rewrite norm_index_in_range by done.
  cbn [TuringState.position TuringState.offset TuringState.tape TuringState.state].
  unfold written, head in *. unfold Move.L, Move.R, Move.S in Hmv.
  unfold bind, list_items, list_new, list_len, ret, raise; simpl.
  repeat first [ rewrite deref_new | rewrite deref_write | progress simpl
               | case_decide ];
    autorewrite with store_len in *; simpl in *; try lia; reflexivity.
Qed.

(** On a state in bounds, a constructed command whose precondition holds
    runs to the end. *)
Lemma execute_command_returns ts c w :
  bounds_inv ts w → constructed c → matches c ts w →
  ∃ ts' w', TuringState.execute_command ts c w = (Ok ts', w').
Proof.
  intros Hb Hc Hm. rewrite execute_command_in_bounds by done.
  repeat case_decide; by eexists _, _.
Qed.

(** ** Properties of [execute_command] *)

Section ExecuteCommand.

Variables (ts : TuringState.t) (c : TuringCommand.t) (w : world).
Hypothesis Hbounds : bounds_inv ts w.
Hypothesis Hconstructed : constructed c.
Hypothesis Hmatches : matches c ts w.

(** C1: on an execution state that satisfies the bounds invariant, a
    command whose precondition holds (it is for the current state and
    the symbol under the head) is executed without an exception, and
    afterwards [0 <= position + offset < len(tape)] holds again (the
    [assert] at the end of [execute_command] passes). *)
Theorem execute_command_preserves_bounds :
  ∃ ts' w',
    TuringState.execute_command ts c w = (Ok ts', w') ∧ bounds_inv ts' w'.
Proof.
  pose proof (constructed_move c Hconstructed) as Hmv.
  unfold Move.L, Move.R, Move.S in Hmv.
  rewrite execute_command_in_bounds by done.
  pose proof Hbounds as Hb. unfold bounds_inv in Hb. fold (head ts) in Hb.
  repeat case_decide; eexists _, _; (split; [reflexivity|]);
    unfold bounds_inv, written; simpl; unfold head in *.
  - rewrite deref_new. simpl. rewrite length_insert. lia.
  - rewrite deref_new. rewrite length_app, length_insert. simpl. lia.
  - rewrite deref_write, length_insert. lia.
Qed.

(** C2: growth of the tape. On a state in bounds and a matching command:
    a move Left with the head on physical cell 0 puts exactly one blank
    in front of the tape and adds one to [offset], and the symbol just
    written is still at the logical position the head had; a move Right
    with the head on the last physical cell appends exactly one blank
    and leaves [offset] alone; in every other case the tape keeps its
    length (it is the same list with the cell under the head
    overwritten) and [offset] is unchanged. *)
Theorem execute_command_growth :
  ∃ ts' w',
    TuringState.execute_command ts c w = (Ok ts', w')
    ∧ (TuringCommand.ret_move c = Move.L ∧ head ts = 0 →
         deref (TuringState.tape ts') w' = EMPTY :: written ts c w
         ∧ TuringState.offset ts' = TuringState.offset ts + 1
         ∧ deref (TuringState.tape ts') w'
             !! Z.to_nat (TuringState.position ts + TuringState.offset ts')
           = Some (TuringCommand.ret_symbol c))
    ∧ (TuringCommand.ret_move c = Move.R
       ∧ head ts = Z.of_nat (length (deref (TuringState.tape ts) w)) - 1 →
         deref (TuringState.tape ts') w' = written ts c w ++ [EMPTY]
         ∧ TuringState.offset ts' = TuringState.offset ts)
    ∧ (¬ (TuringCommand.ret_move c = Move.L ∧ head ts = 0) →
       ¬ (TuringCommand.ret_move c = Move.R
          ∧ head ts = Z.of_nat (length (deref (TuringState.tape ts) w)) - 1) →
         TuringState.tape ts' = TuringState.tape ts
         ∧ deref (TuringState.tape ts') w' = written ts c w
         ∧ length (deref (TuringState.tape ts') w') = length (deref (TuringState.tape ts) w)
         ∧ TuringState.offset ts' = TuringState.offset ts).
Proof.
  pose proof (constructed_move c Hconstructed) as Hmv.
  unfold Move.L, Move.R, Move.S in *.
  rewrite execute_command_in_bounds by done.
  pose proof Hbounds as Hb. unfold bounds_inv in Hb.
  unfold written, head in *.
  repeat case_decide; eexists _, _; (split; [reflexivity|]); simpl.
  - rewrite deref_new. split; [|split; [intros; lia|intros; lia]].
    intros [Hl Hh]. split; [done|]. split; [done|].
    replace (TuringState.position ts + (TuringState.offset ts + 1))
      with 1 by lia.
    rewrite Hh. simpl. apply list_lookup_insert_eq. lia.
  - rewrite deref_new. split; [intros; lia|]. split; [done|]. intros; lia.
  - rewrite deref_write.
    split; [intros; lia|]. split; [intros; lia|].
    intros _ _. by rewrite length_insert.
Qed.

End ExecuteCommand.

(** Outside the bounds invariant the third case of C2 is lost: with
    physical index -1 the read and the write go to the last cell (Python
    counts a negative index from the end), and a move [S] then grows the
    tape on the left. *)
Example execute_command_negative_index :
  TuringState.execute_command (TuringState.mk 0%nat (-1) 0 "Q1")
    (TuringCommand.mk "Q1" "1" "Q2" "1" Move.S) (world0 ["0"; "1"])
  = (Ok (TuringState.mk 1%nat (-1) 1 "Q2"), World [["0"; "1"]; ["b"; "0"; "1"]] []).
Proof. vm_compute. reflexivity. Qed.

(** ** Construction of a command *)

(** C8: [TuringCommand(a, b, c, d, m)] returns a command exactly when
    [b] and [d] have length one and [m] is one of [L], [R], [S]; the
    command then has the five fields given. In every other case it raises
    (a [ValueError], the source's exception for an invalid transition) and
    no command is returned; the symbol [ab] is rejected for every choice
    of the other fields. *)
Theorem new_succeeds_iff_valid :
  (∀ a b c d m,
     match TuringCommand.new a b c d m with
     | Ok t =>
         (len b = 1%nat ∧ len d = 1%nat ∧ m ∈ [Move.L; Move.R; Move.S])
         ∧ t = TuringCommand.mk a b c d m
     | Raise e =>
         ¬ (len b = 1%nat ∧ len d = 1%nat ∧ m ∈ [Move.L; Move.R; Move.S])
         ∧ ∃ msg, e = ValueError msg
     end)
  ∧ (∀ a c d m, ∃ msg, TuringCommand.new a "ab" c d m = Raise (ValueError msg)).
Proof.
  split.
  - intros a b c d m. unfold TuringCommand.new, TuringCommand.post_init. simpl.
    destruct (decide (len b ≠ 1%nat)) as [Hb|Hb].
    { split; [tauto|eauto]. }
    destruct (decide (len d ≠ 1%nat)) as [Hd|Hd].
    { split; [tauto|eauto]. }
    destruct (decide (m ∉ [Move.L; Move.R; Move.S])) as [Hm|Hm].
    { split; [tauto|eauto]. }
    split; [|done].
    split; [by destruct (decide (len b = 1%nat))|].
    split; [by destruct (decide (len d = 1%nat))|].
    by destruct (decide (m ∈ [Move.L; Move.R; Move.S])).
  - intros a c d m. eexists. reflexivity.
Qed.

(** ** Computations that do not print *)

Lemma silent_ret {A} (a : A) : silent (ret a).
Proof. intros h. by exists (Ok a), h. Qed.

Lemma silent_raise {A} e : silent (@raise A e).
Proof. intros h. by exists (Raise e), h. Qed.

Lemma silent_bind {A B} (m : M A) (k : A → M B) :
  silent m → (∀ a, silent (k a)) → silent (bind m k).
Proof.
  intros Hm Hk h. destruct (Hm h) as (r & h1 & Hr).
  destruct r as [a|e].
  - destruct (Hk a h1) as (r2 & h2 & Hr2). exists r2, h2. intros o.
    unfold bind. by rewrite Hr, Hr2.
  - exists (Raise e), h1. intros o. unfold bind. by rewrite Hr.
Qed.

Lemma silent_list_getitem l i : silent (list_getitem l i).
Proof.
  intros h. unfold list_getitem, deref. simpl.
  destruct (norm_index (length (h !!! l)) i) as [j|]; [|by eexists _, _].
  destruct ((h !!! l) !! j); by eexists _, _.
Qed.

Lemma silent_list_setitem l i x : silent (list_setitem l i x).
Proof.
  intros h. unfold list_setitem, deref. simpl.
  destruct (norm_index (length (h !!! l)) i) as [j|]; by eexists _, _.
Qed.

Lemma silent_list_new content : silent (list_new content).
Proof. intros h. eexists _, _. intros o. unfold list_new. simpl. reflexivity. Qed.

Lemma silent_list_items l : silent (list_items l).
Proof.
  intros h. eexists _, _. intros o. unfold list_items, deref. simpl. reflexivity.
Qed.

Lemma silent_list_len l : silent (list_len l).
Proof.
  intros h. eexists _, _. intros o. unfold list_len, deref. simpl. reflexivity.
Qed.

#[local] Hint Resolve silent_ret silent_raise silent_list_getitem
  silent_list_setitem silent_list_new silent_list_items silent_list_len : silent.

Lemma silent_execute_command ts c : silent (TuringState.execute_command ts c).
Proof.
  unfold TuringState.execute_command, TuringState.symbol.
  repeat first
    [ apply silent_bind; [|intros ?]
    | case_decide
    | solve [auto with silent] ].
Qed.

Lemma silent_single_step tm ts : silent (TuringMachine.single_step tm ts).
Proof.
  unfold TuringMachine.single_step, TuringState.symbol.
  apply silent_bind; [auto with silent|]. intros sym. cbv zeta.
  destruct (TuringMachine.programm tm !! _).
  - apply silent_bind; [apply silent_execute_command|]. auto with silent.
  - auto with silent.
Qed.

(** [single_step] leaves the printed output as it is, and its result and
    store do not depend on it. *)
Lemma single_step_frame tm ts h o r w' :
  TuringMachine.single_step tm ts (World h o) = (r, w') →
  stdout w' = o
  ∧ ∀ o', TuringMachine.single_step tm ts (World h o') = (r, World (lists w') o').
Proof.
  intros H. destruct (silent_single_step tm ts h) as (r0 & h0 & H0).
  rewrite H0 in H. injection H as <- <-. simpl. split; [done|]. apply H0.
Qed.

(** ** Properties of [single_step] *)

(** A table entry found under the current (state, symbol) pair of a
    well-keyed table meets the precondition of [execute_command]. *)
Lemma lookup_matches tm ts w sym c :
  well_keyed (TuringMachine.programm tm) →
  TuringState.symbol ts w = (Ok sym, w) →
  TuringMachine.programm tm !! (TuringState.state ts, sym) = Some c →
  matches c ts w.
Proof.
  intros Hk Hsym Hc. apply Hk in Hc. unfold key in Hc.
  injection Hc as Hst Hsy. split; [done|]. by rewrite Hsy.
Qed.

(** Reading a cell does not change the world. *)
Lemma symbol_world ts w r w' : TuringState.symbol ts w = (r, w') → w' = w.
Proof.
  unfold TuringState.symbol, list_getitem.
  destruct (norm_index _ _) as [j|]; [|by intros [= _ <-]].
  destruct (_ !! j); by intros [= _ <-].
Qed.

(** C3: halting detection. Let [sym] be the symbol under the head (the
    read succeeds). [single_step] returns [False] exactly when the table
    has no entry for (current state, [sym]), and then the tape, position,
    offset, state and the whole world are as before the call. When there
    is an entry, [single_step] executes that command: it returns [True]
    with the execution state that [execute_command] leaves, and an
    exception of [execute_command] passes through. On a state in bounds,
    with a well-keyed table and a constructed command, [execute_command]
    raises nothing, so [single_step] does return [True]. *)
Theorem single_step_false_iff_no_entry tm ts w sym :
  TuringState.symbol ts w = (Ok sym, w) →
  ((∃ ts' w', TuringMachine.single_step tm ts w = (Ok (false, ts'), w'))
     ↔ TuringMachine.programm tm !! (TuringState.state ts, sym) = None)
  ∧ (TuringMachine.programm tm !! (TuringState.state ts, sym) = None →
     TuringMachine.single_step tm ts w = (Ok (false, ts), w))
  ∧ (∀ c, TuringMachine.programm tm !! (TuringState.state ts, sym) = Some c →
     (∀ ts' w', TuringState.execute_command ts c w = (Ok ts', w') →
        TuringMachine.single_step tm ts w = (Ok (true, ts'), w'))
     ∧ (∀ e w', TuringState.execute_command ts c w = (Raise e, w') →
        TuringMachine.single_step tm ts w = (Raise e, w'))
     ∧ (well_keyed (TuringMachine.programm tm) → constructed c →
        bounds_inv ts w →
        ∃ ts' w',
          TuringState.execute_command ts c w = (Ok ts', w')
          ∧ TuringMachine.single_step tm ts w = (Ok (true, ts'), w'))).
Proof.
  intros Hsym.
  assert (Hok : ∀ c ts' w',
    TuringMachine.programm tm !! (TuringState.state ts, sym) = Some c →
    TuringState.execute_command ts c w = (Ok ts', w') →
    TuringMachine.single_step tm ts w = (Ok (true, ts'), w')).
  { intros c ts' w' Hl He.
    unfold TuringMachine.single_step, bind. by rewrite Hsym, Hl, He. }
  assert (Hraise : ∀ c e w',
    TuringMachine.programm tm !! (TuringState.state ts, sym) = Some c →
    TuringState.execute_command ts c w = (Raise e, w') →
    TuringMachine.single_step tm ts w = (Raise e, w')).
  { intros c e w' Hl He.
    unfold TuringMachine.single_step, bind. by rewrite Hsym, Hl, He. }
  assert (Hnone :
    TuringMachine.programm tm !! (TuringState.state ts, sym) = None →
    TuringMachine.single_step tm ts w = (Ok (false, ts), w)).
  { intros Hl. unfold TuringMachine.single_step, bind. by rewrite Hsym, Hl. }
  split; [|split; [done|]].
  - split; [|intros Hl; exists ts, w; auto].
    intros (ts' & w' & Hs).
    destruct (TuringMachine.programm tm !! (TuringState.state ts, sym)) as [c|] eqn:Hl;
      [|done].
    destruct (TuringState.execute_command ts c w) as [[ts1|e] w1] eqn:He.
    + rewrite (Hok c ts1 w1 eq_refl He) in Hs. discriminate.
    + rewrite (Hraise c e w1 eq_refl He) in Hs. discriminate.
  - intros c Hl. split; [eauto|]. split; [eauto|].
    intros Hk Hc Hb.
    destruct (execute_command_returns ts c w Hb Hc
                (lookup_matches tm ts w sym c Hk Hsym Hl)) as (ts' & w' & He).
    exists ts', w'. eauto.
Qed.

(** The only exceptions [execute_command] can raise once its precondition
    holds are the failed index and the failed [assert]. *)
Lemma execute_command_no_mismatch ts c w msg :
  matches c ts w →
  (TuringState.execute_command ts c w).1 ≠ Raise (ValueError msg).
Proof.
  intros [Hst Hsym]. unfold TuringState.execute_command.
  rewrite decide_True by done.
  unfold bind at 1. rewrite Hsym. rewrite decide_True by done.
  unfold bind, list_setitem, list_items, list_new, list_len, ret, raise.
  repeat first [ case_decide | progress simpl
               | match goal with
                 | |- context [match norm_index ?n ?i with _ => _ end] =>
                     destruct (norm_index n i)
                 end ];
    discriminate.
Qed.

Lemma single_step_no_mismatch tm ts w msg :
  well_keyed (TuringMachine.programm tm) →
  (TuringMachine.single_step tm ts w).1 ≠ Raise (ValueError msg).
Proof.
  intros Hk. unfold TuringMachine.single_step. unfold bind at 1.
  destruct (TuringState.symbol ts w) as [[sym|e] w1] eqn:Hsym.
  - pose proof (symbol_world _ _ _ _ Hsym) as ->.
    destruct (TuringMachine.programm tm !! (TuringState.state ts, sym)) as [c|] eqn:Hl;
      [|discriminate].
    pose proof (execute_command_no_mismatch ts c w msg
                  (lookup_matches tm ts w sym c Hk Hsym Hl)) as Hne.
    unfold bind. destruct (TuringState.execute_command ts c w) as [[ts'|e] w2];
      simpl in *; [discriminate|].
    intros [= ->]. by apply Hne.
  - simpl. unfold TuringState.symbol, list_getitem in Hsym.
    destruct (norm_index _ _) as [j|]; [destruct (_ !! j)|]; congruence.
Qed.

Lemma run_loop_no_mismatch tm d msg fuel :
  well_keyed (TuringMachine.programm tm) →
  ∀ ts w w', TuringMachine.run_loop fuel tm d ts w ≠ Some (Raise (ValueError msg), w').
Proof.
  intros Hk. induction fuel as [|fuel IH]; intros ts w w'; simpl; [done|].
  destruct (decide (d >= 2)); simpl;
    (pose proof (single_step_no_mismatch tm ts) as Hne;
     match goal with
     | |- context [TuringMachine.single_step tm ts ?w0] =>
         specialize (Hne w0 msg Hk);
         destruct (TuringMachine.single_step tm ts w0) as [[[[] ts1]|e] w1]
     end; simpl in Hne; [apply IH | discriminate | congruence]).
Qed.

(** C9: in a well-keyed table (as [TuringMachine.parse] builds it) the
    command that [single_step] finds under (current state, symbol under
    the head) has that state as [inp_state] and that symbol as
    [inp_symbol], so it meets the precondition of [execute_command];
    neither of the two mismatch errors of [execute_command] (the two
    [ValueError]s) comes out of [single_step] or of [run]. *)
Theorem single_step_meets_precondition tm :
  well_keyed (TuringMachine.programm tm) →
  (∀ ts w sym c,
     TuringState.symbol ts w = (Ok sym, w) →
     TuringMachine.programm tm !! (TuringState.state ts, sym) = Some c →
     matches c ts w)
  ∧ (∀ ts w msg,
       (TuringMachine.single_step tm ts w).1 ≠ Raise (ValueError msg))
  ∧ (∀ fuel tape start d w msg w',
       TuringMachine.run fuel tm tape start d w ≠ Some (Raise (ValueError msg), w')).
Proof.
  intros Hk. split; [|split].
  - intros ts w sym c. by apply lookup_matches.
  - intros ts w msg. by apply single_step_no_mismatch.
  - intros fuel tape start d w msg w'. unfold TuringMachine.run.
    pose proof (run_loop_no_mismatch tm d msg fuel Hk
                  (TuringState.mk tape 0 0 start) w) as Hne.
    destruct (TuringMachine.run_loop fuel tm d _ w) as [[[ts'|e] w1]|]; [| |done].
    + case_decide; discriminate.
    + intros [= -> ->]. by apply (Hne w').
Qed.

(** A table that is not well keyed, which only a direct call of the
    [TuringMachine] constructor can build, does reach the state mismatch
    error. *)
Example single_step_ill_keyed :
  TuringMachine.single_step
    (TuringMachine.mk {[ ("Q1", "0") := TuringCommand.mk "Q2" "0" "Q3" "1" Move.R ]})
    (TuringState.mk 0%nat 0 0 "Q1") (world0 ["0"; "1"])
  = (Raise (ValueError "Command requires state Q2, but current state is Q1."),
     world0 ["0"; "1"]).
Proof. vm_compute. reflexivity. Qed.

(** ** [run] on an empty tape *)

Lemma single_step_empty tm ts w :
  deref (TuringState.tape ts) w = [] →
  TuringMachine.single_step tm ts w
  = (Raise (IndexError "list index out of range"), w).
Proof.
  intros He. unfold TuringMachine.single_step, bind, TuringState.symbol, list_getitem.
  rewrite He. simpl. unfold norm_index. simpl.
  rewrite decide_False by lia. rewrite decide_False by lia. done.
Qed.

(** C10: when the list given to [run] is empty, the fresh execution state
    (position 0, offset 0) is not in bounds, the first read of the symbol
    under the head raises [IndexError], and this exception is what comes
    out of [run]: [run] returns no (tape, state) pair, whatever the
    machine, the start state and the debug level. *)
Theorem run_empty_tape_raises tm tape start d w :
  deref tape w = [] →
  ¬ bounds_inv (TuringState.mk tape 0 0 start) w
  ∧ (∀ fuel, ∃ w',
       TuringMachine.run (S fuel) tm tape start d w
       = Some (Raise (IndexError "list index out of range"), w'))
  ∧ (∀ fuel r w', TuringMachine.run fuel tm tape start d w ≠ Some (Ok r, w')).
Proof.
  intros He.
  assert (Hrun : ∀ fuel, ∃ w',
    TuringMachine.run (S fuel) tm tape start d w
    = Some (Raise (IndexError "list index out of range"), w')).
  { intros fuel. unfold TuringMachine.run. simpl.
    destruct (decide (d >= 2)); simpl.
    - rewrite single_step_empty by (unfold deref in *; simpl; done).
      by eexists.
    - unfold ret. rewrite single_step_empty by done. by eexists. }
  split; [|split; [done|]].
  - unfold bounds_inv. simpl. rewrite He. simpl. lia.
  - intros [|fuel] r w'; [done|].
    destruct (Hrun fuel) as [w1 ->]. discriminate.
Qed.

(** ** The loop of [run] *)

(** The tracing before a step only adds to the printed output. *)
Lemma trace_frame d ts h o :
  ∃ o', (if decide (d >= 2)
         then (let* s := TuringState.str ts in print s)
         else ret ()) (World h o) = (Ok (), World h o').
Proof. case_decide; by eexists. Qed.

Lemma run_loop_debug_irrelevant tm fuel :
  ∀ d1 d2 ts h o1 o2,
    observable (TuringMachine.run_loop fuel tm d1 ts (World h o1))
    = observable (TuringMachine.run_loop fuel tm d2 ts (World h o2)).
Proof.
  induction fuel as [|fuel IH]; intros d1 d2 ts h o1 o2; [done|].
  cbn [TuringMachine.run_loop].
  destruct (trace_frame d1 ts h o1) as [o1' ->].
  destruct (trace_frame d2 ts h o2) as [o2' ->].
  destruct (silent_single_step tm ts h) as (r & h' & Hr).
  rewrite !Hr. destruct r as [[[] ts']|e]; [apply IH|done|done].
Qed.

Lemma run_debug_irrelevant tm fuel tape start d1 d2 w :
  observable (TuringMachine.run fuel tm tape start d1 w)
  = observable (TuringMachine.run fuel tm tape start d2 w).
Proof.
  unfold TuringMachine.run. destruct w as [h o].
  pose proof (run_loop_debug_irrelevant tm fuel d1 d2
                (TuringState.mk tape 0 0 start) h o o) as H.
  destruct (TuringMachine.run_loop fuel tm d1 _ _) as [[[ts1|e1] w1]|];
    destruct (TuringMachine.run_loop fuel tm d2 _ _) as [[[ts2|e2] w2]|];
    simpl in H; try discriminate; [| |done].
  - injection H as -> Hl. do 2 case_decide; simpl; by rewrite Hl.
  - injection H as -> Hl. simpl. by rewrite Hl.
Qed.

(** A call of [single_step] that returns [False] changed nothing. *)
Lemma single_step_false_unchanged tm ts w ts' w' :
  TuringMachine.single_step tm ts w = (Ok (false, ts'), w') → ts' = ts ∧ w' = w.
Proof.
  unfold TuringMachine.single_step. unfold bind at 1.
  destruct (TuringState.symbol ts w) as [[sym|e] w1] eqn:Hsym; [|discriminate].
  apply symbol_world in Hsym as ->.
  destruct (TuringMachine.programm tm !! _) as [c|].
  - unfold bind. destruct (TuringState.execute_command ts c w) as [[?|?] ?];
      discriminate.
  - by intros [= <- <-].
Qed.

(** Without tracing, the loop returns a state exactly when some number of
    successful steps below the bound leads to it and the next step finds
    no entry. *)
Lemma run_loop_steps tm fuel :
  ∀ ts w ts_f w_f,
    TuringMachine.run_loop fuel tm 0 ts w = Some (Ok ts_f, w_f)
    ↔ ∃ k, (k < fuel)%nat ∧ steps tm k (ts, w) (ts_f, w_f)
           ∧ TuringMachine.single_step tm ts_f w_f = (Ok (false, ts_f), w_f).
Proof.
  induction fuel as [|fuel IH]; intros ts w ts_f w_f.
  { split; [done|]. intros (k & Hk & _). lia. }
  cbn [TuringMachine.run_loop]. rewrite decide_False by lia. unfold ret at 1.
  destruct (TuringMachine.single_step tm ts w) as [[[[] ts1]|e] w1] eqn:Hs.
  - rewrite IH. split.
    + intros (k & Hk & Hst & Hf). exists (S k). split; [lia|]. split; [|done].
      by eapply steps_S.
    + intros (k & Hk & Hst & Hf). inversion Hst; subst.
      * congruence.
      * exists n. split; [lia|]. split; [|done]. congruence.
  - apply single_step_false_unchanged in Hs as Hu. destruct Hu as [-> ->].
    split.
    + intros [= <- <-]. exists 0%nat. split; [lia|]. split; [constructor|done].
    + intros (k & Hk & Hst & Hf). inversion Hst; subst; [done|congruence].
  - split; [done|]. intros (k & Hk & Hst & Hf).
    inversion Hst; subst; congruence.
Qed.

(** C4: [run] starts from the execution state with position 0, offset 0
    and the given start state on the given list, calls [single_step]
    until it returns [False], and returns the tape and the state of the
    execution state at that point: it returns a pair exactly when some
    number of successful steps (below the bound on the loop) leads from
    the initial state to a state with no entry, and the pair is that
    state's tape and state. The debug level changes neither the returned
    value nor the store, only what is printed. *)
Theorem run_returns_final_pair tm tape start fuel d w :
  (∀ l s h',
     observable (TuringMachine.run fuel tm tape start d w) = Some (Ok (l, s), h')
     ↔ ∃ k ts_f w_f,
         (k < fuel)%nat
         ∧ steps tm k (TuringState.mk tape 0 0 start, w) (ts_f, w_f)
         ∧ TuringMachine.single_step tm ts_f w_f = (Ok (false, ts_f), w_f)
         ∧ l = TuringState.tape ts_f ∧ s = TuringState.state ts_f
         ∧ h' = lists w_f)
  ∧ (∀ d', observable (TuringMachine.run fuel tm tape start d' w)
           = observable (TuringMachine.run fuel tm tape start d w)).
Proof.
  split; [|intros d'; apply run_debug_irrelevant].
  intros l s h'. rewrite (run_debug_irrelevant tm fuel tape start d 0 w).
  unfold TuringMachine.run.
  pose proof (run_loop_steps tm fuel (TuringState.mk tape 0 0 start) w) as Hloop.
  destruct (TuringMachine.run_loop fuel tm 0 _ w) as [[[ts1|e1] w1]|] eqn:Hr.
  - rewrite decide_False by lia. unfold ret. simpl. split.
    + intros [= <- <- <-]. destruct (Hloop ts1 w1) as [(k & Hk & Hst & Hf) _]; [done|].
      by exists k, ts1, w1.
    + intros (k & ts_f & w_f & Hk & Hst & Hf & -> & -> & ->).
      destruct (Hloop ts_f w_f) as [_ Hb].
      assert (Some (Ok ts1, w1) = Some (Ok ts_f, w_f)) as [= -> ->]
        by (apply Hb; eauto).
      done.
  - simpl. split; [done|].
    intros (k & ts_f & w_f & Hk & Hst & Hf & -> & -> & ->).
    destruct (Hloop ts_f w_f) as [_ Hb].
    assert (Hx : ∃ k, (k < fuel)%nat
                      ∧ steps tm k (TuringState.mk tape 0 0 start, w) (ts_f, w_f)
                      ∧ TuringMachine.single_step tm ts_f w_f = (Ok (false, ts_f), w_f))
      by eauto.
    apply Hb in Hx. discriminate.
  - simpl. split; [done|].
    intros (k & ts_f & w_f & Hk & Hst & Hf & -> & -> & ->).
    destruct (Hloop ts_f w_f) as [_ Hb].
    assert (Hx : ∃ k, (k < fuel)%nat
                      ∧ steps tm k (TuringState.mk tape 0 0 start, w) (ts_f, w_f)
                      ∧ TuringMachine.single_step tm ts_f w_f = (Ok (false, ts_f), w_f))
      by eauto.
    apply Hb in Hx. discriminate.
Qed.

(** ** Determinism of [run] *)

Lemma deref_write_eq l j x w o items :
  deref l w = items →
  deref l (World (<[l := <[j := x]> items]> (lists w)) o) = <[j := x]> items.
Proof. intros <-. apply deref_write. Qed.

Lemma deref_stdout l h o o' : deref l (World h o) = deref l (World h o').
Proof. done. Qed.

(** The outcome of [execute_command], seen through [view], depends on the
    execution state only through its [view]: not on where the tape is
    stored nor on what else the store holds. *)
Lemma execute_command_view ts1 w1 ts2 w2 c :
  view ts1 w1 = view ts2 w2 →
  view_outcome (TuringState.execute_command ts1 c w1)
  = view_outcome (TuringState.execute_command ts2 c w2).
Proof.
  destruct ts1 as [t1 p1 o1 s1], ts2 as [t2 p2 o2 s2]. unfold view. simpl.
  intros [= Hd -> -> ->].
  unfold TuringState.execute_command, TuringState.symbol, list_getitem,
    list_setitem, list_items, list_new, list_len, bind, ret, raise. simpl.
  case_decide; [|done].
  rewrite Hd.
  destruct (norm_index (length (deref t2 w2)) (p2 + o2)) as [j|]; [|done].
  destruct (deref t2 w2 !! j) as [x|]; [|done].
  case_decide.
  - rewrite ?Hd.
    destruct (norm_index (length (deref t2 w2)) (p2 + o2)) as [j'|]; [|done].
    simpl.
    case_decide.
    + simpl. rewrite ?deref_write, ?(deref_write_eq t1 _ _ w1 _ _ Hd).
      unfold view_outcome, view. simpl. rewrite ?deref_new.
      case_decide; simpl; rewrite ?deref_new; done.
    + simpl. rewrite ?deref_write, ?(deref_write_eq t1 _ _ w1 _ _ Hd).
      case_decide.
      * simpl. rewrite ?deref_write, ?(deref_write_eq t1 _ _ w1 _ _ Hd).
        unfold view_outcome, view. simpl. rewrite ?deref_new.
        case_decide; simpl; rewrite ?deref_new; done.
      * simpl. rewrite ?deref_write, ?(deref_write_eq t1 _ _ w1 _ _ Hd).
        case_decide; [|done].
        unfold view_outcome, view. simpl. by rewrite ?deref_write, ?(deref_write_eq t1 _ _ w1 _ _ Hd).
  - rewrite ?Hd.
    destruct (norm_index (length (deref t2 w2)) (p2 + o2)) as [j'|]; [|done].
    destruct (deref t2 w2 !! j'); done.
Qed.

Lemma symbol_view ts1 w1 ts2 w2 :
  view ts1 w1 = view ts2 w2 →
  (TuringState.symbol ts1 w1).1 = (TuringState.symbol ts2 w2).1.
Proof.
  unfold view, TuringState.symbol, list_getitem. intros [= -> -> -> _].
  destruct (norm_index _ _) as [j|]; [|done]. by destruct (_ !! j).
Qed.

Lemma single_step_view tm ts1 w1 ts2 w2 :
  view ts1 w1 = view ts2 w2 →
  view_step (TuringMachine.single_step tm ts1 w1)
  = view_step (TuringMachine.single_step tm ts2 w2).
Proof.
  intros Hv. pose proof (symbol_view _ _ _ _ Hv) as Hs.
  pose proof (execute_command_view ts1 w1 ts2 w2) as Hx.
  unfold TuringMachine.single_step. unfold bind at 1 3.
  destruct (TuringState.symbol ts1 w1) as [r1 w1'] eqn:H1.
  destruct (TuringState.symbol ts2 w2) as [r2 w2'] eqn:H2.
  apply symbol_world in H1 as ->. apply symbol_world in H2 as ->.
  simpl in Hs. subst r2. destruct r1 as [sym|e]; [|done].
  assert (TuringState.state ts1 = TuringState.state ts2) as ->
    by (unfold view in Hv; congruence).
  destruct (TuringMachine.programm tm !! _) as [c|].
  - specialize (Hx c Hv). unfold bind.
    destruct (TuringState.execute_command ts1 c w1) as [[a1|e1] w1'];
      destruct (TuringState.execute_command ts2 c w2) as [[a2|e2] w2'];
      simpl in *; congruence.
  - unfold view_step, ret. congruence.
Qed.

Lemma run_loop_view tm fuel :
  ∀ d1 d2 ts1 w1 ts2 w2,
    view ts1 w1 = view ts2 w2 →
    view_loop (TuringMachine.run_loop fuel tm d1 ts1 w1)
    = view_loop (TuringMachine.run_loop fuel tm d2 ts2 w2).
Proof.
  induction fuel as [|fuel IH]; intros d1 d2 ts1 [h1 o1] ts2 [h2 o2] Hv; [done|].
  cbn [TuringMachine.run_loop].
  destruct (trace_frame d1 ts1 h1 o1) as [o1' ->].
  destruct (trace_frame d2 ts2 h2 o2) as [o2' ->].
  assert (Hv' : view ts1 (World h1 o1') = view ts2 (World h2 o2')) by exact Hv.
  pose proof (single_step_view tm _ _ _ _ Hv') as Hs.
  destruct (TuringMachine.single_step tm ts1 _) as [[[b1 a1]|e1] w1'];
    destruct (TuringMachine.single_step tm ts2 _) as [[[b2 a2]|e2] w2'];
    simpl in Hs; try discriminate.
  - assert (b1 = b2 ∧ view a1 w1' = view a2 w2') as [-> Ha]
      by (split; congruence).
    destruct b2; [apply IH, Ha|]. simpl. by rewrite Ha.
  - simpl. congruence.
Qed.

(** C5, as the code has it: two calls of [run] with the same program and
    start state, on lists with equal items, agree on whether they return,
    on the exception if one is raised, and on the returned pair (the items
    of the final tape and the final state); the debug levels, the place of
    the lists in the store and the rest of the store make no difference.
    Nothing is said for a second run on the same list object after the
    first has written into it. *)
Theorem run_deterministic_on_equal_items tm start fuel d1 d2 t1 t2 w1 w2 :
  deref t1 w1 = deref t2 w2 →
  value_of (TuringMachine.run fuel tm t1 start d1 w1)
  = value_of (TuringMachine.run fuel tm t2 start d2 w2).
Proof.
  intros Hd. unfold TuringMachine.run.
  pose proof (run_loop_view tm fuel d1 d2 (TuringState.mk t1 0 0 start) w1
                (TuringState.mk t2 0 0 start) w2) as Hl.
  unfold view in Hl. simpl in Hl. rewrite Hd in Hl. specialize (Hl eq_refl).
  destruct (TuringMachine.run_loop fuel tm d1 _ w1) as [[[a1|e1] w1']|];
    destruct (TuringMachine.run_loop fuel tm d2 _ w2) as [[[a2|e2] w2']|];
    simpl in Hl; try discriminate; [| |done].
  - assert (view a1 w1' = view a2 w2') as Hv by congruence.
    unfold view in Hv. injection Hv as Hi Hp Ho Hs.
    do 2 case_decide; simpl; unfold deref in *; simpl; by rewrite Hi, Hs.
  - simpl. congruence.
Qed.

(** C5 does not hold for two runs on one list object: [run] writes into
    the list it is given, so a second run on the same list object starts
    from what the first run left. With the one-command machine [Q0 0 Q1 1
    S] and the list [["0"]], the first run returns state [Q1], the second,
    on the same list, returns state [Q0]. *)
Lemma run_twice_on_same_list_differs :
  TuringMachine.run 2 flip_machine 0%nat "Q0" 0 (world0 ["0"])
  = Some (Ok (0%nat, "Q1"), world0 ["1"])
  ∧ TuringMachine.run 2 flip_machine 0%nat "Q0" 0 (world0 ["1"])
    = Some (Ok (0%nat, "Q0"), world0 ["1"])
  ∧ value_of (TuringMachine.run 2 flip_machine 0%nat "Q0" 0 (world0 ["0"]))
    ≠ value_of (TuringMachine.run 2 flip_machine 0%nat "Q0" 0 (world0 ["1"])).
Proof. split; [|split]; vm_compute; [reflexivity|reflexivity|discriminate]. Qed.

(** ** Parsing *)

(** A command that [TuringCommand.parse] returns went through the
    constructor, with the fields of the line. *)
Lemma parse_Ok_inv line c :
  TuringCommand.parse line = Ok c →
  constructed c
  ∧ ∃ ret_move_str,
      split " "%char line
      = [TuringCommand.inp_state c; TuringCommand.inp_symbol c;
         TuringCommand.ret_state c; TuringCommand.ret_symbol c; ret_move_str]
      ∧ ret_move_str ∈ ["L"; "R"; "S"].
Proof.
  unfold TuringCommand.parse.
  destruct (split " "%char line) as [|a [|b [|c0 [|d [|m [|? ?]]]]]];
    try (unfold unpack_error; case_decide; discriminate).
  assert (Hnew : ∀ mv, TuringCommand.new a b c0 d mv = Ok c →
                       constructed c ∧ c = TuringCommand.mk a b c0 d mv).
  { intros mv H. unfold TuringCommand.new in H.
    assert (c = TuringCommand.mk a b c0 d mv) as ->.
    { unfold TuringCommand.post_init in H.
      repeat match type of H with
             | context [decide ?P] => destruct (decide P)
             end; congruence. }
    done. }
  repeat case_decide; try discriminate; intros Hp; apply Hnew in Hp as [Hc ->];
    (split; [done|]); simpl; eexists; (split; [reflexivity|]); subst m;
    rewrite !elem_of_cons; auto.
Qed.

Lemma well_formed_line_parse line :
  well_formed_line line = true → ∃ c, TuringCommand.parse line = Ok c.
Proof.
  unfold well_formed_line, TuringCommand.parse.
  destruct (split " "%char line) as [|a [|b [|c0 [|d [|m [|? ?]]]]]]; try done.
  rewrite !andb_true_iff, !bool_decide_eq_true. intros [[Hb Hd] Hm].
  assert (Hnew : ∀ mv, mv ∈ [Move.L; Move.R; Move.S] →
            TuringCommand.new a b c0 d mv = Ok (TuringCommand.mk a b c0 d mv)).
  { intros mv Hmv. unfold TuringCommand.new, TuringCommand.post_init. simpl.
    rewrite decide_False by (intros ?; done).
    rewrite decide_False by (intros ?; done).
    rewrite decide_False by (intros ?; done). done. }
  repeat case_decide; try (eexists; apply Hnew; rewrite !elem_of_cons; auto).
  exfalso. rewrite !elem_of_cons, elem_of_nil in Hm. tauto.
Qed.

Lemma len_zero s : len s = 0%nat ↔ s = "".
Proof. by destruct s. Qed.

(** The table after the loop of [parse] over lines that all parse: the
    commands of the non-blank lines, filed one after the other. *)
Lemma parse_lines_Ok lines :
  ∀ m0 cmds,
    Forall2 (λ line c, TuringCommand.parse line = Ok c)
      (filter (λ line, line ≠ "") lines) cmds →
    TuringMachine.parse_lines m0 lines
    = Ok (foldl (λ m c, <[key c := c]> m) m0 cmds).
Proof.
  induction lines as [|line lines IH]; intros m0 cmds Hf; simpl.
  - rewrite filter_nil in Hf. by apply Forall2_nil_inv_l in Hf as ->.
  - destruct (decide (line = "")) as [->|Hne].
    + rewrite filter_cons_False in Hf by (intros ?; done).
      rewrite decide_False by (intros ?; done). by apply IH.
    + rewrite filter_cons_True in Hf by done.
      apply Forall2_cons_inv_l in Hf as (c & cmds' & Hc & Hf & ->).
      rewrite decide_True by (by rewrite len_zero).
      rewrite Hc. simpl. by apply IH.
Qed.

Lemma lookup_foldl_insert k cmds :
  ∀ m0 : gmap (string * string) TuringCommand.t,
    foldl (λ m c, <[key c := c]> m) m0 cmds !! k
    = match last_with_key k cmds with
      | Some c => Some c
      | None => m0 !! k
      end.
Proof.
  unfold last_with_key.
  induction cmds as [|c cmds IH] using rev_ind; intros m0; [done|].
  rewrite foldl_app, filter_app. simpl.
  destruct (decide (key c = k)) as [<-|Hne].
  - rewrite lookup_insert_eq.
    rewrite (filter_cons_True _ c []) by done. rewrite filter_nil.
    by rewrite last_snoc.
  - rewrite lookup_insert_ne by done.
    rewrite (filter_cons_False _ c []) by done. rewrite filter_nil, app_nil_r.
    apply IH.
Qed.

(** C7: on a text whose non-blank lines are all well formed, [parse]
    returns a machine and raises nothing. Blank lines add nothing: the
    table comes from the non-blank lines alone, each parsed as one command
    by [TuringCommand.parse], and under every key it holds the command of
    the last line with that key (none if no line has it), so a later line
    replaces an earlier one with the same (state, symbol) pair. *)
Theorem parse_well_formed_text text :
  Forall (λ line, line = "" ∨ well_formed_line line = true) (lines_of text) →
  ∃ cmds m,
    Forall2 (λ line c, TuringCommand.parse line = Ok c)
      (filter (λ line, line ≠ "") (lines_of text)) cmds
    ∧ TuringMachine.parse text = Ok (TuringMachine.mk m)
    ∧ ∀ k, m !! k = last_with_key k cmds.
Proof.
  intros Hwf.
  assert (Hcmds : ∃ cmds,
    Forall2 (λ line c, TuringCommand.parse line = Ok c)
      (filter (λ line, line ≠ "") (lines_of text)) cmds).
  { induction Hwf as [|line lines Hl _ IH].
    - exists []. rewrite filter_nil. constructor.
    - destruct IH as [cmds IH]. destruct (decide (line = "")) as [->|Hne].
      + exists cmds. by rewrite filter_cons_False by (intros ?; done).
      + destruct Hl as [?|Hl]; [done|].
        apply well_formed_line_parse in Hl as [c Hc].
        exists (c :: cmds). rewrite filter_cons_True by done. by constructor. }
  destruct Hcmds as [cmds Hcmds].
  exists cmds, (foldl (λ m c, <[key c := c]> m) ∅ cmds).
  split; [done|]. split.
  - unfold TuringMachine.parse. fold (lines_of text).
    by rewrite (parse_lines_Ok _ ∅ cmds Hcmds).
  - intros k. rewrite lookup_foldl_insert. rewrite lookup_empty.
    by destruct (last_with_key k cmds).
Qed.

Lemma parse_Raise_ValueError line e :
  TuringCommand.parse line = Raise e → ∃ msg, e = ValueError msg.
Proof.
  unfold TuringCommand.parse, TuringCommand.new, TuringCommand.post_init,
    unpack_error.
  destruct (split " "%char line) as [|a [|b [|c0 [|d [|m [|? ?]]]]]]; simpl;
    repeat case_decide; intros [= <-]; by eexists.
Qed.

Lemma malformed_line_parse line :
  malformed_line line = true → ∃ e, TuringCommand.parse line = Raise e.
Proof.
  unfold malformed_line, TuringCommand.parse.
  destruct (split " "%char line) as [|a [|b [|c0 [|d [|m [|? ?]]]]]];
    try (intros _; by eexists).
  rewrite negb_true_iff, bool_decide_eq_false, !elem_of_cons, elem_of_nil.
  intros Hm.
  rewrite !decide_False by tauto. by eexists.
Qed.

Lemma parse_bad_move_code line a b c d m :
  split " "%char line = [a; b; c; d; m] → m ∉ ["L"; "R"; "S"] →
  TuringCommand.parse line
  = Raise (ValueError
             ("The move of a command needs to be saved as either 'L', 'R' or 'S', but tried to parse '"
                +:+ m +:+ "' in command '" +:+ line +:+ "'.")).
Proof.
  intros Hs Hm. unfold TuringCommand.parse. rewrite Hs.
  rewrite !elem_of_cons, elem_of_nil in Hm.
  rewrite !decide_False by tauto. done.
Qed.

(** The loop of [parse] stops at the first non-blank line that
    [TuringCommand.parse] rejects, with that line's exception. *)
Lemma parse_lines_first_failure before line after e :
  Forall (λ l, l = "" ∨ ∃ c, TuringCommand.parse l = Ok c) before →
  line ≠ "" →
  TuringCommand.parse line = Raise e →
  ∀ m0, TuringMachine.parse_lines m0 (before ++ line :: after) = Raise e.
Proof.
  intros Hb Hne He. induction Hb as [|l before Hl _ IH]; intros m0; simpl.
  - rewrite decide_True by (by rewrite len_zero). by rewrite He.
  - destruct (decide (l = "")) as [->|Hl'].
    + rewrite decide_False by (intros ?; done). apply IH.
    + rewrite decide_True by (by rewrite len_zero).
      destruct Hl as [?|[c ->]]; [done|]. apply IH.
Qed.

Lemma first_failure lines :
  Exists (λ l, l ≠ "" ∧ ∃ e, TuringCommand.parse l = Raise e) lines →
  ∃ before line after e,
    lines = before ++ line :: after
    ∧ Forall (λ l, l = "" ∨ ∃ c, TuringCommand.parse l = Ok c) before
    ∧ line ≠ ""
    ∧ TuringCommand.parse line = Raise e.
Proof.
  induction lines as [|l lines IH]; intros Hex; [by apply Exists_nil in Hex|].
  destruct (decide (l = "")) as [->|Hne].
  - apply Exists_cons in Hex as [[? _]|Hex]; [done|].
    destruct (IH Hex) as (before & line & after & e & -> & Hb & Hl & He).
    exists ("" :: before), line, after, e. repeat split; try done.
    constructor; [by left|done].
  - destruct (TuringCommand.parse l) as [c|e] eqn:Hp.
    + apply Exists_cons in Hex as [[_ [e He]]|Hex]; [congruence|].
      destruct (IH Hex) as (before & line & after & e & -> & Hb & Hl & He).
      exists (l :: before), line, after, e. repeat split; try done.
      constructor; [right; by exists c|done].
    + exists [], l, lines, e. repeat split; try done.
Qed.

(** C6, as the code has it: a text with a non-blank malformed line (not
    exactly five fields, or a move code other than [L], [R], [S]) makes
    [parse] raise a [ValueError] and return no machine. The exception is
    the one that [TuringCommand.parse] raises on the first non-blank line
    it rejects; all lines before that one are blank or parse. When that
    line has five fields and an unrecognised move code, the message quotes
    the move code and the whole line. No message carries a line number. *)
Theorem parse_malformed_text text :
  Exists (λ line, line ≠ "" ∧ malformed_line line = true) (lines_of text) →
  ∃ before line after e,
    lines_of text = before ++ line :: after
    ∧ Forall (λ l, l = "" ∨ ∃ c, TuringCommand.parse l = Ok c) before
    ∧ line ≠ ""
    ∧ TuringCommand.parse line = Raise e
    ∧ TuringMachine.parse text = Raise e
    ∧ (∃ msg, e = ValueError msg)
    ∧ (∀ a b c d m,
         split " "%char line = [a; b; c; d; m] → m ∉ ["L"; "R"; "S"] →
         message e
         = "The move of a command needs to be saved as either 'L', 'R' or 'S', but tried to parse '"
             +:+ m +:+ "' in command '" +:+ line +:+ "'.").
Proof.
  intros Hex.
  destruct (first_failure (lines_of text)) as (before & line & after & e & Hl & Hb & Hne & He).
  { eapply Exists_impl; [exact Hex|]. intros l [Hl Hm]. split; [done|].
    by apply malformed_line_parse. }
  exists before, line, after, e. repeat split; try done.
  - unfold TuringMachine.parse. fold (lines_of text). rewrite Hl.
    by rewrite (parse_lines_first_failure before line after e Hb Hne He).
  - by eapply parse_Raise_ValueError.
  - intros a b c d m Hs Hm.
    rewrite (parse_bad_move_code line a b c d m Hs Hm) in He.
    by injection He as <-.
Qed.

(** C6 does not hold for a wrong field count: the line [Q0 0 Q1] has three
    fields; [parse] raises the interpreter's unpacking error, whose
    message names neither a token nor the line (nor a line number). *)
Lemma parse_three_fields_message :
  malformed_line "Q0 0 Q1" = true
  ∧ TuringMachine.parse "Q0 0 Q1"
    = Raise (ValueError "not enough values to unpack (expected 5, got 3)")
  ∧ contains "Q0 0 Q1" "not enough values to unpack (expected 5, got 3)" = false
  ∧ contains "Q0" "not enough values to unpack (expected 5, got 3)" = false
  ∧ contains "1" "not enough values to unpack (expected 5, got 3)" = false.
Proof. repeat split; vm_compute; reflexivity. Qed.

(** ** Tables built by [parse] *)

Lemma parse_lines_inv lines :
  ∀ m0 m,
    well_keyed m0 → all_constructed m0 →
    TuringMachine.parse_lines m0 lines = Ok m →
    well_keyed m ∧ all_constructed m.
Proof.
  induction lines as [|line lines IH]; intros m0 m Hk Hc; simpl.
  - by intros [= <-].
  - case_decide; [|by apply IH].
    destruct (TuringCommand.parse line) as [c|e] eqn:Hp; [|done].
    apply parse_Ok_inv in Hp as [Hcc _].
    apply IH.
    + intros k c' Hl. destruct (decide (key c = k)) as [<-|Hne].
      * rewrite lookup_insert_eq in Hl. by injection Hl as <-.
      * rewrite lookup_insert_ne in Hl by done. by apply Hk.
    + intros k c' Hl. destruct (decide (key c = k)) as [<-|Hne].
      * rewrite lookup_insert_eq in Hl. by injection Hl as <-.
      * rewrite lookup_insert_ne in Hl by done. by eapply Hc.
Qed.

(** Every machine that [TuringMachine.parse] returns has a well-keyed
    table of constructed commands. *)
Lemma parse_well_keyed text tm :
  TuringMachine.parse text = Ok tm →
  well_keyed (TuringMachine.programm tm)
  ∧ all_constructed (TuringMachine.programm tm).
Proof.
  unfold TuringMachine.parse.
  destruct (TuringMachine.parse_lines ∅ _) as [m|e] eqn:Hp; [|done].
  intros [= <-]. simpl. eapply parse_lines_inv; [| |exact Hp].
  - intros k c Hl. by rewrite lookup_empty in Hl.
  - intros k c Hl. by rewrite lookup_empty in Hl.
Qed.

(** ** The theorems at concrete inputs *)

Lemma doctest_machine_parsed :
  TuringMachine.parse "Q1 0 Q2 1 R" = Ok doctest_machine.
Proof. vm_compute. reflexivity. Qed.

Lemma execute_command_preserves_bounds_witness :
  bounds_inv (TuringState.mk 0%nat 0 0 "Q1") (world0 ["0"; "1"])
  ∧ constructed (TuringCommand.mk "Q1" "0" "Q2" "0" Move.L)
  ∧ matches (TuringCommand.mk "Q1" "0" "Q2" "0" Move.L)
      (TuringState.mk 0%nat 0 0 "Q1") (world0 ["0"; "1"])
  ∧ ∃ ts' w',
      TuringState.execute_command (TuringState.mk 0%nat 0 0 "Q1")
        (TuringCommand.mk "Q1" "0" "Q2" "0" Move.L) (world0 ["0"; "1"])
      = (Ok ts', w')
      ∧ bounds_inv ts' w'.
Proof.
  assert (Hb : bounds_inv (TuringState.mk 0%nat 0 0 "Q1") (world0 ["0"; "1"]))
    by (unfold bounds_inv; simpl; lia).
  assert (Hc : constructed (TuringCommand.mk "Q1" "0" "Q2" "0" Move.L))
    by (vm_compute; reflexivity).
  assert (Hm : matches (TuringCommand.mk "Q1" "0" "Q2" "0" Move.L)
                 (TuringState.mk 0%nat 0 0 "Q1") (world0 ["0"; "1"]))
    by (split; vm_compute; reflexivity).
  split; [exact Hb|]. split; [exact Hc|]. split; [exact Hm|].
  exact (execute_command_preserves_bounds _ _ _ Hb Hc Hm).
Defined.

Lemma execute_command_growth_witness :
  bounds_inv (TuringState.mk 0%nat 1 0 "Q1") (world0 ["0"; "1"])
  ∧ constructed (TuringCommand.mk "Q1" "1" "Q2" "1" Move.R)
  ∧ matches (TuringCommand.mk "Q1" "1" "Q2" "1" Move.R)
      (TuringState.mk 0%nat 1 0 "Q1") (world0 ["0"; "1"])
  ∧ ∃ ts' w',
      TuringState.execute_command (TuringState.mk 0%nat 1 0 "Q1")
        (TuringCommand.mk "Q1" "1" "Q2" "1" Move.R) (world0 ["0"; "1"])
      = (Ok ts', w')
      ∧ deref (TuringState.tape ts') w' = ["0"; "1"; "b"]
      ∧ TuringState.offset ts' = 0.
Proof.
  assert (Hb : bounds_inv (TuringState.mk 0%nat 1 0 "Q1") (world0 ["0"; "1"]))
    by (unfold bounds_inv; simpl; lia).
  assert (Hc : constructed (TuringCommand.mk "Q1" "1" "Q2" "1" Move.R))
    by (vm_compute; reflexivity).
  assert (Hm : matches (TuringCommand.mk "Q1" "1" "Q2" "1" Move.R)
                 (TuringState.mk 0%nat 1 0 "Q1") (world0 ["0"; "1"]))
    by (split; vm_compute; reflexivity).
  split; [exact Hb|]. split; [exact Hc|]. split; [exact Hm|].
  destruct (execute_command_growth _ _ _ Hb Hc Hm)
    as (ts' & w' & He & _ & Hright & _).
  exists ts', w'. split; [exact He|].
  apply Hright. split; reflexivity.
Defined.

Lemma single_step_false_iff_no_entry_witness :
  TuringState.symbol (TuringState.mk 0%nat 0 0 "Q1") (world0 ["0"; "1"])
  = (Ok "0", world0 ["0"; "1"])
  ∧ well_keyed (TuringMachine.programm doctest_machine)
  ∧ constructed (TuringCommand.mk "Q1" "0" "Q2" "1" Move.R)
  ∧ bounds_inv (TuringState.mk 0%nat 0 0 "Q1") (world0 ["0"; "1"])
  ∧ ∃ ts' w',
      TuringMachine.single_step doctest_machine (TuringState.mk 0%nat 0 0 "Q1")
        (world0 ["0"; "1"])
      = (Ok (true, ts'), w').
Proof.
  assert (Hsym : TuringState.symbol (TuringState.mk 0%nat 0 0 "Q1")
                   (world0 ["0"; "1"]) = (Ok "0", world0 ["0"; "1"]))
    by (vm_compute; reflexivity).
  destruct (parse_well_keyed _ _ doctest_machine_parsed) as [Hk _].
  assert (Hc : constructed (TuringCommand.mk "Q1" "0" "Q2" "1" Move.R))
    by (vm_compute; reflexivity).
  assert (Hb : bounds_inv (TuringState.mk 0%nat 0 0 "Q1") (world0 ["0"; "1"]))
    by (unfold bounds_inv; simpl; lia).
  split; [exact Hsym|]. split; [exact Hk|]. split; [exact Hc|]. split; [exact Hb|].
  destruct (single_step_false_iff_no_entry doctest_machine _ _ _ Hsym)
    as (_ & _ & Hsome).
  destruct (Hsome (TuringCommand.mk "Q1" "0" "Q2" "1" Move.R))
    as (_ & _ & Hret); [vm_compute; reflexivity|].
  destruct (Hret Hk Hc Hb) as (ts' & w' & _ & Hs).
  by exists ts', w'.
Defined.

Lemma single_step_meets_precondition_witness :
  well_keyed (TuringMachine.programm doctest_machine)
  ∧ matches (TuringCommand.mk "Q1" "0" "Q2" "1" Move.R)
      (TuringState.mk 0%nat 0 0 "Q1") (world0 ["0"; "1"]).
Proof.
  destruct (parse_well_keyed _ _ doctest_machine_parsed) as [Hk _].
  split; [exact Hk|].
  destruct (single_step_meets_precondition doctest_machine Hk) as [Hpre _].
  apply (Hpre _ _ "0"); vm_compute; reflexivity.
Defined.

Lemma run_empty_tape_raises_witness :
  deref 0%nat (world0 []) = []
  ∧ ∃ w',
      TuringMachine.run 1 doctest_machine 0%nat START_STATE 2 (world0 [])
      = Some (Raise (IndexError "list index out of range"), w').
Proof.
  split; [reflexivity|].
  destruct (run_empty_tape_raises doctest_machine 0%nat START_STATE 2 (world0 [])
              eq_refl) as (_ & Hraise & _).
  exact (Hraise 0%nat).
Defined.

Lemma run_returns_final_pair_witness :
  observable (TuringMachine.run 2 doctest_machine 0%nat "Q1" 1 (world0 ["0"; "1"]))
  = Some (Ok (0%nat, "Q2"), [["1"; "1"]]).
Proof.
  destruct (run_returns_final_pair doctest_machine 0%nat "Q1" 2 1 (world0 ["0"; "1"]))
    as [Hiff _].
  apply Hiff.
  exists 1%nat, (TuringState.mk 0%nat 1 0 "Q2"), (world0 ["1"; "1"]).
  split; [lia|]. split.
  - eapply steps_S; [vm_compute; reflexivity|apply steps_O].
  - split; [vm_compute; reflexivity|]. done.
Defined.

Lemma run_deterministic_on_equal_items_witness :
  deref 0%nat (world0 ["0"]) = deref 1%nat (World [["1"]; ["0"]] ["printed"])
  ∧ value_of (TuringMachine.run 2 flip_machine 0%nat "Q0" 0 (world0 ["0"]))
    = value_of (TuringMachine.run 2 flip_machine 1%nat "Q0" 2
                  (World [["1"]; ["0"]] ["printed"])).
Proof.
  split; [reflexivity|].
  apply run_deterministic_on_equal_items. reflexivity.
Defined.

Lemma parse_malformed_text_witness :
  Exists (λ line, line ≠ "" ∧ malformed_line line = true) (lines_of bad_move_text)
  ∧ ∃ e, TuringMachine.parse bad_move_text = Raise e
         ∧ message e
           = "The move of a command needs to be saved as either 'L', 'R' or 'S', but tried to parse 'X' in command 'Q0 0 Q1 1 X'.".
Proof.
  assert (Hex : Exists (λ line, line ≠ "" ∧ malformed_line line = true)
                  (lines_of bad_move_text)).
  { apply Exists_cons_tl, Exists_cons_hd. split; [discriminate|].
    vm_compute. reflexivity. }
  split; [exact Hex|].
  destruct (parse_malformed_text bad_move_text Hex)
    as (before & line & after & e & Hl & Hb & Hne & He & Hp & _ & Hmsg).
  exists e. split; [exact Hp|].
  assert (before = ["Q0 0 Q1 1 L"] ∧ line = "Q0 0 Q1 1 X") as [-> ->].
  { vm_compute in Hl.
    destruct before as [|b0 [|b1 before]].
    - injection Hl as <- _. vm_compute in He. discriminate.
    - by injection Hl as <- <- _.
    - injection Hl as _ _ Hl. by destruct before. }
  apply (Hmsg "Q0" "0" "Q1" "1" "X"); [vm_compute; reflexivity|].
  rewrite !elem_of_cons, elem_of_nil. intros [H|[H|[H|[]]]]; discriminate.
Defined.

Lemma parse_well_formed_text_witness :
  Forall (λ line, line = "" ∨ well_formed_line line = true) (lines_of overwrite_text)
  ∧ ∃ m, TuringMachine.parse overwrite_text = Ok (TuringMachine.mk m)
         ∧ m !! ("Q0", "0") = Some (TuringCommand.mk "Q0" "0" "Q2" "0" Move.R).
Proof.
  assert (Hwf : Forall (λ line, line = "" ∨ well_formed_line line = true)
                  (lines_of overwrite_text)).
  { repeat constructor; (by left) || (right; vm_compute; reflexivity). }
  split; [exact Hwf|].
  destruct (parse_well_formed_text overwrite_text Hwf) as (cmds & m & Hc & Hp & Hm).
  exists m. split; [exact Hp|].
  vm_compute in Hp. injection Hp as <-. vm_compute. reflexivity.
Defined.


(** * Further properties of the code *)

(** ** Strings: [split] and its inverse *)

Lemma app_String c s t : String c s +:+ t = String c (s +:+ t).
Proof. reflexivity. Qed.

Lemma app_empty_l t : "" +:+ t = t.
Proof. reflexivity. Qed.

Lemma app_singleton c t : String c "" +:+ t = String c t.
Proof. reflexivity. Qed.

Lemma split_cons sep s : ∃ w ws, split sep s = w :: ws.
Proof.
  destruct s as [|c s]; simpl; [by eexists _, _|].
  case_decide; [by eexists _, _|].
  destruct (split sep s); by eexists _, _.
Qed.

Lemma join_split sep s : join_with (String sep "") (split sep s) = s.
Proof.
  induction s as [|c s IH]; [done|]. simpl.
  destruct (split_cons sep s) as (w & ws & Hs). rewrite Hs in IH |- *.
  case_decide as Hc.
  - subst c.
    change (join_with (String sep "") ("" :: w :: ws))
      with ("" +:+ String sep "" +:+ join_with (String sep "") (w :: ws)).
    rewrite IH. reflexivity.
  - destruct ws as [|w' ws].
    + simpl in IH |- *. by rewrite IH.
    + change (join_with (String sep "") (String c w :: w' :: ws))
        with (String c w +:+ String sep "" +:+ join_with (String sep "") (w' :: ws)).
      change (join_with (String sep "") (w :: w' :: ws))
        with (w +:+ String sep "" +:+ join_with (String sep "") (w' :: ws)) in IH.
      rewrite <- IH. reflexivity.
Qed.

Lemma split_no_sep sep s : Forall (λ f, has_char sep f = false) (split sep s).
Proof.
  induction s as [|c s IH]; simpl; [by repeat constructor|].
  case_decide as Hc; [by constructor|].
  destruct (split sep s) as [|w ws].
  { constructor; [|constructor]. simpl. by rewrite bool_decide_eq_false_2. }
  apply Forall_cons in IH as [Hw Hws]. constructor; [|done].
  simpl. rewrite Hw. by rewrite bool_decide_eq_false_2.
Qed.

Lemma split_without_sep sep s : has_char sep s = false → split sep s = [s].
Proof.
  induction s as [|c s IH]; [done|]. simpl.
  rewrite orb_false_iff, bool_decide_eq_false. intros [Hc Hs].
  rewrite decide_False by done. by rewrite IH.
Qed.

Lemma split_app sep s1 s2 :
  split sep (s1 +:+ String sep s2) = split sep s1 ++ split sep s2.
Proof.
  induction s1 as [|c s1 IH].
  - rewrite app_empty_l. simpl. by rewrite decide_True.
  - rewrite app_String. simpl. rewrite IH.
    case_decide; [done|].
    by destruct (split_cons sep s1) as (w & ws & ->).
Qed.

Lemma split_field sep a rest :
  has_char sep a = false →
  split sep (a +:+ String sep rest) = a :: split sep rest.
Proof. intros Ha. by rewrite split_app, split_without_sep. Qed.

(** ** [TuringCommand.parse]: accepted lines, round trip, order of the checks *)

(** The constructor returns the very record of its arguments. *)
Lemma new_Ok_inv a b c d mv cmd :
  TuringCommand.new a b c d mv = Ok cmd →
  cmd = TuringCommand.mk a b c d mv ∧ constructed cmd.
Proof.
  unfold TuringCommand.new. intros H.
  assert (cmd = TuringCommand.mk a b c d mv) as ->; [|done].
  unfold TuringCommand.post_init in H.
  repeat match type of H with
         | context [decide ?P] => destruct (decide P)
         end; congruence.
Qed.

(** What [constructed] says about the fields. *)
Lemma constructed_fields c :
  constructed c ↔
  len (TuringCommand.inp_symbol c) = 1%nat
  ∧ len (TuringCommand.ret_symbol c) = 1%nat
  ∧ TuringCommand.ret_move c ∈ [Move.L; Move.R; Move.S].
Proof.
  unfold constructed, TuringCommand.post_init. split.
  - intros H.
    repeat match type of H with
           | context [decide ?P] => destruct (decide P)
           end; try discriminate.
    repeat split;
      match goal with
      | |- ?P => by destruct (decide P)
      end.
  - intros (Hb & Hd & Hm).
    rewrite decide_False by (intros ?; done).
    rewrite decide_False by (intros ?; done).
    by rewrite decide_False by (intros ?; done).
Qed.

(** A line that [TuringCommand.parse] accepts splits into the fields of
    the command, the last one being the code of the command's move. *)
Lemma parse_Ok_fields line c :
  TuringCommand.parse line = Ok c →
  constructed c
  ∧ split " "%char line
    = [TuringCommand.inp_state c; TuringCommand.inp_symbol c;
       TuringCommand.ret_state c; TuringCommand.ret_symbol c;
       move_code (TuringCommand.ret_move c)].
Proof.
  unfold TuringCommand.parse.
  destruct (split " "%char line) as [|a [|b [|c0 [|d [|m [|? ?]]]]]];
    try (unfold unpack_error; case_decide; discriminate).
  destruct (decide (m = "L")) as [->|HL].
  { intros H. apply new_Ok_inv in H as [-> Hc]. done. }
  destruct (decide (m = "R")) as [->|HR].
  { intros H. apply new_Ok_inv in H as [-> Hc]. done. }
  destruct (decide (m = "S")) as [->|HS]; [|done].
  intros H. apply new_Ok_inv in H as [-> Hc]. done.
Qed.

Lemma one_char_no_space s :
  len s = 1%nat → (has_char " " s = false ↔ s ≠ " ").
Proof.
  destruct s as [|c [|c' s]]; try done. intros _. simpl.
  rewrite orb_false_r, bool_decide_eq_false. split; [congruence|].
  intros H ->. done.
Qed.

Lemma move_code_no_space m : has_char " " (move_code m) = false.
Proof. unfold move_code. by repeat case_decide. Qed.

(** An accepted line is the text of its command, and no field of the
    command holds a space. *)
Lemma parse_Ok_unparse line c :
  TuringCommand.parse line = Ok c → line = unparse c ∧ space_free c.
Proof.
  intros H. apply parse_Ok_fields in H as [Hc Hs].
  pose proof (join_split " "%char line) as Hj. rewrite Hs in Hj.
  pose proof (split_no_sep " "%char line) as Hn. rewrite Hs in Hn.
  apply constructed_fields in Hc as Hf. destruct Hf as (Hb & Hd & _).
  split; [by rewrite <- Hj|].
  apply Forall_cons in Hn as [Ha Hn]. apply Forall_cons in Hn as [Hb' Hn].
  apply Forall_cons in Hn as [Hc' Hn]. apply Forall_cons in Hn as [Hd' _].
  repeat split; try done; by apply one_char_no_space.
Qed.

(** X2: round trip of [TuringCommand.parse]. A line is accepted with
    command [c] exactly when it is the text of [c] (the five fields with
    single spaces between them, the move written as its code), [c] is a
    command the constructor accepts, and no field of [c] holds a space.
    So an accepted line is recovered from the command, two different
    lines never give the same command, and a command with a space in a
    state name or with the space as a symbol cannot come out of [parse]. *)
Theorem parse_iff_unparse line c :
  TuringCommand.parse line = Ok c
  ↔ line = unparse c ∧ constructed c ∧ space_free c.
Proof.
  split.
  - intros H. pose proof (parse_Ok_fields _ _ H) as [Hc _].
    apply parse_Ok_unparse in H as [Hl Hs]. done.
  - intros (-> & Hc & Ha & Hr & Hb & Hd).
    apply constructed_fields in Hc as Hf. destruct Hf as (Hlb & Hld & Hm).
    apply (one_char_no_space _ Hlb) in Hb. apply (one_char_no_space _ Hld) in Hd.
    unfold TuringCommand.parse, unparse. rewrite !app_singleton.
    rewrite !split_field by done.
    rewrite split_without_sep by apply move_code_no_space.
    destruct c as [a b c0 d mv]. simpl in *.
    assert (Hnew : TuringCommand.new a b c0 d mv = Ok (TuringCommand.mk a b c0 d mv))
      by exact Hc.
    repeat (apply elem_of_cons in Hm as [->|Hm]); [| | |by apply elem_of_nil in Hm];
      vm_compute move_code; simpl; exact Hnew.
Qed.

Lemma parse_Ok_well_formed line c :
  TuringCommand.parse line = Ok c → well_formed_line line = true.
Proof.
  intros H. apply parse_Ok_fields in H as [Hc Hs].
  apply constructed_fields in Hc as (Hb & Hd & Hm).
  unfold well_formed_line. rewrite Hs.
  rewrite !andb_true_iff, !bool_decide_eq_true. repeat split; try done.
  unfold move_code. repeat case_decide; rewrite !elem_of_cons; auto.
Qed.

(** X1: [TuringCommand.parse] accepts a line exactly when the line is well
    formed: it splits at single spaces into exactly five fields, the
    second and the fourth are one character long, and the fifth is [L],
    [R] or [S]. *)
Theorem parse_accepts_iff_well_formed line :
  (∃ c, TuringCommand.parse line = Ok c) ↔ well_formed_line line = true.
Proof.
  split.
  - intros [c H]. by eapply parse_Ok_well_formed.
  - intros H. by apply well_formed_line_parse.
Qed.

Lemma new_Raise a b c d mv :
  mv ∈ [Move.L; Move.R; Move.S] →
  (len b ≠ 1%nat →
   TuringCommand.new a b c d mv
   = Raise (ValueError ("Symbols need to have length one, but inp_symbol is "
                          +:+ b +:+ " with length " +:+ pretty (len b) +:+ ".")))
  ∧ (len b = 1%nat → len d ≠ 1%nat →
     TuringCommand.new a b c d mv
     = Raise (ValueError ("Symbols need to have length one, but ret_symbol is "
                            +:+ d +:+ " with length " +:+ pretty (len d) +:+ ".")))
  ∧ (len b = 1%nat → len d = 1%nat →
     TuringCommand.new a b c d mv = Ok (TuringCommand.mk a b c d mv)).
Proof.
  intros Hm. unfold TuringCommand.new, TuringCommand.post_init. simpl.
  repeat split; intros; repeat case_decide; done.
Qed.

(** X3: the order in which [TuringCommand.parse] reports problems. The
    number of fields is checked first (the unpacking error, whatever the
    fields hold), then the move code (even when a symbol is too long),
    then the length of [inp_symbol], then the length of [ret_symbol];
    a line that passes all four is accepted with its fields. The check of
    [ret_move] in the constructor can never fail for a parsed line. *)
Theorem parse_check_order line :
  match split " "%char line with
  | [a; b; c; d; m] =>
      (m ∉ ["L"; "R"; "S"] →
       TuringCommand.parse line
       = Raise (ValueError
                  ("The move of a command needs to be saved as either 'L', 'R' or 'S', but tried to parse '"
                     +:+ m +:+ "' in command '" +:+ line +:+ "'.")))
      ∧ (m ∈ ["L"; "R"; "S"] → len b ≠ 1%nat →
         TuringCommand.parse line
         = Raise (ValueError ("Symbols need to have length one, but inp_symbol is "
                                +:+ b +:+ " with length " +:+ pretty (len b) +:+ ".")))
      ∧ (m ∈ ["L"; "R"; "S"] → len b = 1%nat → len d ≠ 1%nat →
         TuringCommand.parse line
         = Raise (ValueError ("Symbols need to have length one, but ret_symbol is "
                                +:+ d +:+ " with length " +:+ pretty (len d) +:+ ".")))
      ∧ (m ∈ ["L"; "R"; "S"] → len b = 1%nat → len d = 1%nat →
         ∃ mv, move_code mv = m
               ∧ TuringCommand.parse line = Ok (TuringCommand.mk a b c d mv))
  | fields => TuringCommand.parse line = Raise (unpack_error 5 (length fields))
  end.
Proof.
  destruct (split " "%char line) as [|a [|b [|c [|d [|m [|? ?]]]]]] eqn:Hs;
    try (unfold TuringCommand.parse; by rewrite Hs).
  split; [intros Hm; by apply (parse_bad_move_code line a b c d m)|].
  assert (Hp : m ∈ ["L"; "R"; "S"] →
    ∃ mv, mv ∈ [Move.L; Move.R; Move.S] ∧ move_code mv = m
          ∧ TuringCommand.parse line = TuringCommand.new a b c d mv).
  { intros Hm. unfold TuringCommand.parse. rewrite Hs.
    repeat (apply elem_of_cons in Hm as [->|Hm]); [| | |by apply elem_of_nil in Hm].
    - exists Move.L. rewrite !elem_of_cons. auto.
    - exists Move.R. rewrite !elem_of_cons. auto.
    - exists Move.S. rewrite !elem_of_cons. auto. }
  repeat split.
  - intros Hm Hb. destruct (Hp Hm) as (mv & Hmv & _ & ->).
    by apply new_Raise.
  - intros Hm Hb Hd. destruct (Hp Hm) as (mv & Hmv & _ & ->).
    by apply new_Raise.
  - intros Hm Hb Hd. destruct (Hp Hm) as (mv & Hmv & Hc & ->).
    exists mv. split; [done|]. by apply new_Raise.
Qed.

(** ** [TuringMachine.parse]: accepted texts, what the table holds, texts put together *)

Lemma parse_lines_Ok_inv lines :
  ∀ m0 m,
    TuringMachine.parse_lines m0 lines = Ok m →
    Forall (λ l, l = "" ∨ ∃ c, TuringCommand.parse l = Ok c) lines.
Proof.
  induction lines as [|line lines IH]; intros m0 m; simpl; [constructor|].
  case_decide as Hl.
  - destruct (TuringCommand.parse line) as [c|e] eqn:Hp; [|done].
    intros H. constructor; [right; by exists c|by eapply IH].
  - intros H. constructor; [|by eapply IH].
    left. apply len_zero. by destruct (decide (len line = 0%nat)).
Qed.

(** X4: [TuringMachine.parse] returns a machine exactly when every line of
    the text is blank or well formed; one line that is neither makes the
    whole call raise. *)
Theorem machine_parse_accepts_iff_well_formed text :
  (∃ tm, TuringMachine.parse text = Ok tm)
  ↔ Forall (λ line, line = "" ∨ well_formed_line line = true) (lines_of text).
Proof.
  unfold TuringMachine.parse. fold (lines_of text). split.
  - intros [tm H].
    destruct (TuringMachine.parse_lines ∅ (lines_of text)) as [m|e] eqn:Hp; [|done].
    apply parse_lines_Ok_inv in Hp.
    eapply Forall_impl; [exact Hp|]. intros l [->|Hc]; [by left|right].
    destruct Hc as [c Hc]. by eapply parse_Ok_well_formed.
  - intros Hwf.
    assert (Hcmds : ∃ cmds,
      Forall2 (λ line c, TuringCommand.parse line = Ok c)
        (filter (λ line, line ≠ "") (lines_of text)) cmds).
    { induction Hwf as [|line lines Hl _ IH].
      - exists []. rewrite filter_nil. constructor.
      - destruct IH as [cmds IH]. destruct (decide (line = "")) as [->|Hne].
        + exists cmds. by rewrite filter_cons_False by (intros ?; done).
        + destruct Hl as [?|Hl]; [done|].
          apply well_formed_line_parse in Hl as [c Hc].
          exists (c :: cmds). rewrite filter_cons_True by done. by constructor. }
    destruct Hcmds as [cmds Hcmds].
    rewrite (parse_lines_Ok _ ∅ cmds Hcmds). by eexists.
Qed.

Lemma parse_lines_provenance lines :
  ∀ m0 m,
    TuringMachine.parse_lines m0 lines = Ok m →
    ∀ k c, m !! k = Some c →
      m0 !! k = Some c
      ∨ ∃ line, line ∈ lines ∧ line ≠ "" ∧ TuringCommand.parse line = Ok c.
Proof.
  induction lines as [|line lines IH]; intros m0 m; simpl.
  - intros [= <-] k c Hl. by left.
  - case_decide as Hne.
    + destruct (TuringCommand.parse line) as [c0|e] eqn:Hp; [|done].
      intros H k c Hl. destruct (IH _ _ H k c Hl) as [Hm|(l & Hin & Hl' & Hc)].
      * destruct (decide (key c0 = k)) as [<-|Hk].
        -- rewrite lookup_insert_eq in Hm. injection Hm as <-.
           right. exists line. split; [by left|]. split; [|done].
           intros ->. by apply Hne.
        -- rewrite lookup_insert_ne in Hm by done. by left.
      * right. exists l. split; [by right|done].
    + intros H k c Hl. destruct (IH _ _ H k c Hl) as [Hm|(l & Hin & Hl' & Hc)];
        [by left|].
      right. exists l. split; [by right|done].
Qed.

(** X5: what a parsed table holds. Every entry of the table that
    [TuringMachine.parse] returns is filed under its own (state, symbol)
    pair, is a command the constructor accepts with no space in a field,
    and is written in the text: its line is one of the lines of the text.
    The table holds nothing that the text does not say. *)
Theorem parsed_table_entries text tm k c :
  TuringMachine.parse text = Ok tm →
  TuringMachine.programm tm !! k = Some c →
  k = key c ∧ constructed c ∧ space_free c ∧ unparse c ∈ lines_of text.
Proof.
  unfold TuringMachine.parse. fold (lines_of text).
  destruct (TuringMachine.parse_lines ∅ (lines_of text)) as [m|e] eqn:Hp; [|done].
  intros [= <-] Hl. simpl in Hl.
  destruct (parse_lines_provenance _ _ _ Hp k c Hl) as [He|(line & Hin & Hne & Hc)].
  { by rewrite lookup_empty in He. }
  destruct (parse_lines_inv (lines_of text) ∅ m) as [Hk _];
    [intros ? ? He; by rewrite lookup_empty in He
    |intros ? ? He; by rewrite lookup_empty in He
    |exact Hp|].
  pose proof (parse_Ok_fields _ _ Hc) as [Hcon _].
  apply parse_Ok_unparse in Hc as [-> Hs].
  split; [symmetry; by apply Hk|]. done.
Qed.

Lemma parse_lines_app l1 l2 :
  ∀ m0,
    TuringMachine.parse_lines m0 (l1 ++ l2)
    = match TuringMachine.parse_lines m0 l1 with
      | Ok m => TuringMachine.parse_lines m l2
      | Raise e => Raise e
      end.
Proof.
  induction l1 as [|line l1 IH]; intros m0; simpl; [done|].
  case_decide; [|apply IH].
  destruct (TuringCommand.parse line); [apply IH|done].
Qed.

(** The loop of [parse] started on a table is the loop started on the
    empty table, laid over that table. *)
Lemma parse_lines_over lines :
  ∀ m0,
    TuringMachine.parse_lines m0 lines
    = match TuringMachine.parse_lines ∅ lines with
      | Ok m => Ok (m ∪ m0)
      | Raise e => Raise e
      end.
Proof.
  induction lines as [|line lines IH]; intros m0; simpl.
  - by rewrite (left_id_L ∅ (∪)).
  - case_decide; [|apply IH].
    destruct (TuringCommand.parse line) as [c|e]; [|done].
    rewrite (IH (<[_:=_]> m0)), (IH (<[_:=_]> ∅)).
    destruct (TuringMachine.parse_lines ∅ lines) as [m|e]; [|done].
    f_equal. rewrite !insert_union_singleton_l.
    rewrite (right_id_L ∅ (∪)). by rewrite (assoc_L (∪)).
Qed.

(** X6: putting two texts together. The parse of [t1], a newline and
    [t2] fails with the error of [t1] if [t1] fails, else with the error
    of [t2] if [t2] fails, and else returns the table of [t2] laid over
    the table of [t1]: the entries of [t2] win, the other entries of [t1]
    stay. In particular a newline at the end or at the start of a text
    changes nothing. *)
Theorem parse_concat t1 t2 :
  TuringMachine.parse (t1 +:+ String "010" t2)
  = match TuringMachine.parse t1 with
    | Raise e => Raise e
    | Ok m1 =>
        match TuringMachine.parse t2 with
        | Raise e => Raise e
        | Ok m2 =>
            Ok (TuringMachine.mk
                  (TuringMachine.programm m2 ∪ TuringMachine.programm m1))
        end
    end
  ∧ TuringMachine.parse (t1 +:+ String "010" "") = TuringMachine.parse t1
  ∧ TuringMachine.parse (String "010" t1) = TuringMachine.parse t1.
Proof.
  assert (Hcat : ∀ a b,
    TuringMachine.parse (a +:+ String "010" b)
    = match TuringMachine.parse a with
      | Raise e => Raise e
      | Ok m1 =>
          match TuringMachine.parse b with
          | Raise e => Raise e
          | Ok m2 =>
              Ok (TuringMachine.mk
                    (TuringMachine.programm m2 ∪ TuringMachine.programm m1))
          end
      end).
  { intros a b. unfold TuringMachine.parse.
    rewrite split_app, parse_lines_app.
    destruct (TuringMachine.parse_lines ∅ (split "010" a)) as [m1|e1]; [|done].
    rewrite parse_lines_over.
    by destruct (TuringMachine.parse_lines ∅ (split "010" b)). }
  split; [apply Hcat|]. split.
  - rewrite Hcat. destruct (TuringMachine.parse t1) as [[m1]|e]; [|done].
    unfold TuringMachine.parse. simpl. by rewrite (left_id_L ∅ (∪)).
  - change (String "010" t1) with ("" +:+ String "010" t1). rewrite Hcat.
    unfold TuringMachine.parse at 1. simpl.
    destruct (TuringMachine.parse t1) as [[m2]|e]; [|done].
    simpl. by rewrite (right_id_L ∅ (∪)).
Qed.

Lemma parsed_table_entries_witness :
  TuringMachine.parse overwrite_text
  = Ok (TuringMachine.mk
          {[ ("Q0", "0") := TuringCommand.mk "Q0" "0" "Q2" "0" Move.R ]})
  ∧ "Q0 0 Q2 0 R" ∈ lines_of overwrite_text.
Proof.
  assert (Hp : TuringMachine.parse overwrite_text
               = Ok (TuringMachine.mk
                       {[ ("Q0", "0") := TuringCommand.mk "Q0" "0" "Q2" "0" Move.R ]}))
    by (vm_compute; reflexivity).
  split; [exact Hp|].
  destruct (parsed_table_entries overwrite_text _ ("Q0", "0")
              (TuringCommand.mk "Q0" "0" "Q2" "0" Move.R) Hp)
    as (_ & _ & _ & Hin); [vm_compute; reflexivity|].
  exact Hin.
Defined.

(** ** The store: what [execute_command] and [run] touch *)

Lemma deref_insert_ne l t x h o :
  l ≠ t → deref l (World (<[t := x]> h) o) = deref l (World h o).
Proof. intros Hne. unfold deref. simpl. by rewrite list_lookup_total_insert_ne. Qed.

Lemma deref_app_old l x h o :
  (l < length h)%nat → deref l (World (h ++ [x]) o) = deref l (World h o).
Proof. intros Hl. unfold deref. simpl. by rewrite lookup_total_app_l. Qed.

(** Every call of [execute_command], whatever its outcome: no list object
    is dropped, at most one is added, no list other than the tape of the
    state is changed, nothing is printed, and the tape of the new state is
    the old list object or the one just added. *)
Lemma execute_command_store ts c w r w' :
  TuringState.execute_command ts c w = (r, w') →
  (length (lists w) ≤ length (lists w'))%nat
  ∧ (∀ l, l ≠ TuringState.tape ts → (l < length (lists w))%nat →
          deref l w' = deref l w)
  ∧ stdout w' = stdout w
  ∧ (∀ ts', r = Ok ts' →
            TuringState.tape ts' = TuringState.tape ts
            ∨ TuringState.tape ts' = length (lists w)).
Proof.
  destruct ts as [t p o s], w as [h out].
  unfold TuringState.execute_command, TuringState.symbol, list_getitem,
    list_setitem, list_items, list_new, list_len, bind, ret, raise. simpl.
  assert (Hsame : ∀ e : exn,
    (Raise e, World h out) = (r, w') →
    (length h ≤ length (lists w'))%nat
    ∧ (∀ l, l ≠ t → (l < length h)%nat → deref l w' = deref l (World h out))
    ∧ stdout w' = out
    ∧ (∀ ts', r = Ok ts' → TuringState.tape ts' = t ∨ TuringState.tape ts' = length h)).
  { intros e [= <- <-]. simpl. repeat split; try done. }
  case_decide; [|apply Hsame].
  destruct (norm_index (length (deref t (World h out))) (p + o)) as [j|];
    [|apply Hsame].
  destruct (deref t (World h out) !! j) as [x|]; [|apply Hsame].
  case_decide.
  2:{ destruct (norm_index _ _) as [j'|]; [|apply Hsame].
      destruct (deref t (World h out) !! j'); apply Hsame. }
  destruct (norm_index (length (deref t (World h out))) (p + o)) as [j'|];
    [|apply Hsame].
  simpl.
  repeat (case_decide; simpl); intros [= <- <-]; simpl;
    rewrite ?length_app, ?length_insert; simpl;
    (split; [lia|]); (split; [|split; [done|]]);
    try (intros l Hl1 Hl2;
         rewrite ?deref_app_old by (by rewrite length_insert);
         by rewrite deref_insert_ne);
    try (intros ts' [= <-]; simpl; auto);
    try (intros ts' ?; done).
Qed.

Lemma single_step_store tm ts w r w' :
  TuringMachine.single_step tm ts w = (r, w') →
  (length (lists w) ≤ length (lists w'))%nat
  ∧ (∀ l, l ≠ TuringState.tape ts → (l < length (lists w))%nat →
          deref l w' = deref l w)
  ∧ (∀ b ts', r = Ok (b, ts') →
              TuringState.tape ts' = TuringState.tape ts
              ∨ TuringState.tape ts' = length (lists w)).
Proof.
  unfold TuringMachine.single_step. unfold bind at 1.
  destruct (TuringState.symbol ts w) as [[sym|e] w1] eqn:Hsym;
    apply symbol_world in Hsym as ->.
  2:{ intros [= <- <-]. repeat split; try done. }
  destruct (TuringMachine.programm tm !! _) as [c|].
  2:{ intros [= <- <-]. repeat split; try done. intros b ts' [= _ <-]. auto. }
  unfold bind.
  destruct (TuringState.execute_command ts c w) as [[ts1|e] w1] eqn:He;
    apply execute_command_store in He as (Hlen & Hfr & _ & Htape);
    intros [= <- <-]; repeat split; try done.
  intros b ts' [= _ <-]. by apply Htape.
Qed.

Lemma run_loop_store tm d (h0 : list (list string)) (tape0 : loc) fuel :
  ∀ ts w r w',
    (TuringState.tape ts = tape0 ∨ (length h0 ≤ TuringState.tape ts)%nat) →
    (length h0 ≤ length (lists w))%nat →
    (∀ l, l ≠ tape0 → (l < length h0)%nat → deref l w = h0 !!! l) →
    TuringMachine.run_loop fuel tm d ts w = Some (r, w') →
    (length h0 ≤ length (lists w'))%nat
    ∧ (∀ l, l ≠ tape0 → (l < length h0)%nat → deref l w' = h0 !!! l)
    ∧ (∀ ts', r = Ok ts' →
              TuringState.tape ts' = tape0 ∨ (length h0 ≤ TuringState.tape ts')%nat).
Proof.
  induction fuel as [|fuel IH]; intros ts [h o] r w' Ht Hlen Hfr; [done|].
  cbn [TuringMachine.run_loop].
  destruct (trace_frame d ts h o) as [o' ->].
  destruct (TuringMachine.single_step tm ts (World h o')) as [r1 w1] eqn:Hs.
  apply single_step_store in Hs as (Hlen1 & Hfr1 & Htape1). simpl in *.
  assert (Hfr' : ∀ l, l ≠ tape0 → (l < length h0)%nat → deref l w1 = h0 !!! l).
  { intros l Hl1 Hl2. rewrite Hfr1; [by apply Hfr| |lia].
    destruct Ht as [->|Ht]; [done|lia]. }
  destruct r1 as [[[] ts1]|e].
  - apply IH; [|lia|done].
    destruct (Htape1 _ _ eq_refl) as [->| ->]; [done|right; lia].
  - intros [= <- <-]. split; [lia|]. split; [done|].
    intros ts' [= <-]. destruct (Htape1 _ _ eq_refl) as [->| ->]; [done|right; lia].
  - intros [= <- <-]. split; [lia|]. split; [done|]. intros ts' ?; done.
Qed.

(** X8: what [run] leaves alone. Whatever the outcome of a call of [run]
    (a returned pair or an exception), every list object that existed
    before the call, other than the tape passed in, has the items it had;
    no list object is dropped; and the tape that [run] returns is either
    the list object passed in or one created during the call. *)
Theorem run_store_frame fuel tm tape start d w r w' :
  TuringMachine.run fuel tm tape start d w = Some (r, w') →
  (length (lists w) ≤ length (lists w'))%nat
  ∧ (∀ l, l ≠ tape → (l < length (lists w))%nat → deref l w' = deref l w)
  ∧ (∀ l s, r = Ok (l, s) → l = tape ∨ (length (lists w) ≤ l)%nat).
Proof.
  unfold TuringMachine.run.
  destruct (TuringMachine.run_loop fuel tm d _ w) as [[r1 w1]|] eqn:Hl; [|done].
  apply (run_loop_store tm d (lists w) tape) in Hl as (Hlen & Hfr & Htape);
    [|by left|done|done].
  destruct r1 as [ts1|e].
  - case_decide; intros [= <- <-]; simpl; (split; [done|]);
      (split; [intros l Hl1 Hl2; by apply Hfr|]);
      intros l s [= <- <-]; by apply Htape.
  - intros [= <- <-]. split; [done|]. split; [|intros ? ? ?; done].
    intros l Hl1 Hl2. by apply Hfr.
Qed.

(** ** One step seen by logical positions *)

Lemma written_lookup ts c w (i : nat) :
  (i < length (deref (TuringState.tape ts) w))%nat →
  written ts c w !! i
  = if decide (i = Z.to_nat (head ts)) then Some (TuringCommand.ret_symbol c)
    else deref (TuringState.tape ts) w !! i.
Proof.
  intros Hi. unfold written. case_decide as He.
  - subst i. by apply list_lookup_insert_eq.
  - by apply list_lookup_insert_ne.
Qed.

Lemma written_length ts c w :
  length (written ts c w) = length (deref (TuringState.tape ts) w).
Proof. unfold written. apply length_insert. Qed.

(** X7: one step, cell by cell. On a state in bounds and a matching
    constructed command, [execute_command] returns, and with cells named
    by their logical position (physical index minus [offset]): the cell at
    the old head position holds the command's [ret_symbol], every other
    cell that existed holds what it held, a cell that did not exist holds
    the blank, and no cell is lost. The list object that the state held
    before the call has the written cell and is never extended: a growth
    step builds a new list. *)
Theorem execute_command_cells ts c w :
  bounds_inv ts w → constructed c → matches c ts w →
  ∃ ts' w',
    TuringState.execute_command ts c w = (Ok ts', w')
    ∧ deref (TuringState.tape ts) w' = written ts c w
    ∧ (∀ q : Z,
         0 <= q + TuringState.offset ts'
           < Z.of_nat (length (deref (TuringState.tape ts') w')) →
         deref (TuringState.tape ts') w' !! Z.to_nat (q + TuringState.offset ts')
         = if decide (q = TuringState.position ts)
           then Some (TuringCommand.ret_symbol c)
           else if decide (0 <= q + TuringState.offset ts
                             < Z.of_nat (length (deref (TuringState.tape ts) w)))
                then deref (TuringState.tape ts) w !! Z.to_nat (q + TuringState.offset ts)
                else Some EMPTY)
    ∧ (∀ q : Z,
         0 <= q + TuringState.offset ts
           < Z.of_nat (length (deref (TuringState.tape ts) w)) →
         0 <= q + TuringState.offset ts'
           < Z.of_nat (length (deref (TuringState.tape ts') w'))).
Proof.
  intros Hb Hc Hm.
  pose proof (constructed_move c Hc) as Hmv. unfold Move.L, Move.R, Move.S in Hmv.
  pose proof (bounds_inv_allocated ts w Hb) as Hal.
  rewrite execute_command_in_bounds by done.
  unfold bounds_inv in Hb. fold (head ts) in Hb.
  pose proof (written_length ts c w) as Hwl.
  assert (Hold : ∀ o,
    deref (TuringState.tape ts)
      (World (<[TuringState.tape ts := written ts c w]> (lists w)) o)
    = written ts c w) by (intros o; apply deref_write).
  assert (Hw : ∀ q, 0 <= q + TuringState.offset ts
                       < Z.of_nat (length (deref (TuringState.tape ts) w)) →
    written ts c w !! Z.to_nat (q + TuringState.offset ts)
    = if decide (q = TuringState.position ts)
      then Some (TuringCommand.ret_symbol c)
      else deref (TuringState.tape ts) w !! Z.to_nat (q + TuringState.offset ts)).
  { intros q Hq. rewrite written_lookup by lia. unfold head in *.
    repeat case_decide; try done; exfalso; lia. }
  unfold head in *.
  repeat case_decide; eexists _, _; (split; [reflexivity|]); simpl.
  - rewrite deref_new. split.
    { rewrite deref_app_old by (rewrite length_insert; lia). apply Hold. }
    split.
    + intros q Hq. simpl in Hq. rewrite Hwl in Hq.
      destruct (decide (q + TuringState.offset ts = -1)) as [Heq|Hne].
      * replace (q + (TuringState.offset ts + 1)) with 0 by lia. simpl.
        rewrite decide_False by lia. by rewrite decide_False by lia.
      * replace (Z.to_nat (q + (TuringState.offset ts + 1)))
          with (S (Z.to_nat (q + TuringState.offset ts))) by lia.
        simpl. rewrite Hw by lia.
        case_decide; [done|]. by rewrite decide_True by lia.
    + intros q Hq. simpl. rewrite Hwl. lia.
  - rewrite deref_new. split.
    { rewrite deref_app_old by (rewrite length_insert; lia). apply Hold. }
    split.
    + intros q Hq. rewrite length_app, Hwl in Hq. simpl in Hq.
      destruct (decide (q + TuringState.offset ts
                        = Z.of_nat (length (deref (TuringState.tape ts) w))))
        as [Heq|Hne].
      * rewrite lookup_app_r by (rewrite Hwl; lia).
        rewrite Hwl, Heq, Nat2Z.id, Nat.sub_diag. simpl.
        rewrite decide_False by lia. by rewrite decide_False by lia.
      * rewrite lookup_app_l by (rewrite Hwl; lia).
        rewrite Hw by lia. case_decide; [done|]. by rewrite decide_True by lia.
    + intros q Hq. rewrite length_app, Hwl. simpl. lia.
  - rewrite Hold. split; [done|]. split.
    + intros q Hq. rewrite Hwl in Hq. rewrite Hw by lia.
      case_decide; [done|]. by rewrite decide_True by lia.
    + intros q Hq. by rewrite Hwl.
Qed.

Lemma execute_command_cells_witness :
  ∃ ts' w',
    TuringState.execute_command (TuringState.mk 0%nat 0 0 "Q1")
      (TuringCommand.mk "Q1" "0" "Q2" "x" Move.L) (world0 ["0"; "1"])
    = (Ok ts', w')
    ∧ deref 0%nat w' = ["x"; "1"]
    ∧ deref (TuringState.tape ts') w' !! Z.to_nat (1 + TuringState.offset ts')
      = Some "1".
Proof.
  assert (Hb : bounds_inv (TuringState.mk 0%nat 0 0 "Q1") (world0 ["0"; "1"]))
    by (unfold bounds_inv; simpl; lia).
  assert (Hc : constructed (TuringCommand.mk "Q1" "0" "Q2" "x" Move.L))
    by (vm_compute; reflexivity).
  assert (Hm : matches (TuringCommand.mk "Q1" "0" "Q2" "x" Move.L)
                 (TuringState.mk 0%nat 0 0 "Q1") (world0 ["0"; "1"]))
    by (split; vm_compute; reflexivity).
  destruct (execute_command_cells _ _ _ Hb Hc Hm)
    as (ts' & w' & He & Hold & Hcell & Hkeep).
  exists ts', w'. split; [exact He|]. split; [exact Hold|].
  rewrite (Hcell 1); [reflexivity|].
  apply (Hkeep 1). simpl. lia.
Defined.

(** ** Runs of a well-keyed machine on a tape in bounds *)

Lemma elem_of_written ts c w x :
  x ∈ written ts c w →
  x = TuringCommand.ret_symbol c ∨ x ∈ deref (TuringState.tape ts) w.
Proof.
  unfold written. intros Hx. apply list_elem_of_lookup in Hx as [i Hi].
  destruct (decide (i = Z.to_nat (head ts))) as [->|Hne].
  - pose proof (lookup_lt_Some _ _ _ Hi) as Hlt. rewrite length_insert in Hlt.
    rewrite list_lookup_insert_eq in Hi by done. left. congruence.
  - rewrite list_lookup_insert_ne in Hi by done.
    right. apply list_elem_of_lookup. by exists i.
Qed.

(** One call of [execute_command] on a state in bounds with a matching
    constructed command: it returns, the new state is in bounds and within
    one step of the old one, and every cell of the new tape is a cell of
    the old tape, the blank or the symbol written. *)
Lemma execute_command_step ts c w :
  bounds_inv ts w → constructed c → matches c ts w →
  ∃ ts' w',
    TuringState.execute_command ts c w = (Ok ts', w')
    ∧ bounds_inv ts' w'
    ∧ within 1 ts w ts' w'
    ∧ (∀ x, x ∈ deref (TuringState.tape ts') w' →
            x ∈ deref (TuringState.tape ts) w ∨ x = EMPTY
            ∨ x = TuringCommand.ret_symbol c).
Proof.
  intros Hb Hc Hm.
  pose proof (constructed_move c Hc) as Hmv. unfold Move.L, Move.R, Move.S in Hmv.
  rewrite execute_command_in_bounds by done.
  pose proof (written_length ts c w) as Hwl.
  pose proof (elem_of_written ts c w) as Hel.
  assert (Hold : ∀ o,
    deref (TuringState.tape ts)
      (World (<[TuringState.tape ts := written ts c w]> (lists w)) o)
    = written ts c w) by (intros o; apply deref_write).
  unfold bounds_inv, within in *. unfold head in *.
  repeat case_decide; eexists _, _; (split; [reflexivity|]); simpl;
    rewrite ?deref_new, ?Hold, ?length_app; simpl; rewrite ?Hwl.
  - split; [lia|]. split; [lia|].
    intros x Hx. apply elem_of_cons in Hx as [->|Hx]; [auto|].
    destruct (Hel x Hx); auto.
  - split; [lia|]. split; [lia|].
    intros x Hx. apply elem_of_app in Hx as [Hx|Hx].
    + destruct (Hel x Hx); auto.
    + apply list_elem_of_singleton in Hx as ->. auto.
  - split; [lia|]. split; [lia|].
    intros x Hx. destruct (Hel x Hx); auto.
Qed.

(** One call of [single_step] with a well-keyed table of constructed
    commands on a state in bounds: it returns, with [False] and nothing
    changed when there is no entry, and else with [True] and a state in
    bounds, within one step, with cells from the old tape or writable. *)
Lemma single_step_in_bounds tm ts w :
  well_keyed (TuringMachine.programm tm) →
  all_constructed (TuringMachine.programm tm) →
  bounds_inv ts w →
  (TuringMachine.single_step tm ts w = (Ok (false, ts), w)
   ∧ ∃ sym, TuringState.symbol ts w = (Ok sym, w)
            ∧ TuringMachine.programm tm !! (TuringState.state ts, sym) = None)
  ∨ ∃ ts' w',
      TuringMachine.single_step tm ts w = (Ok (true, ts'), w')
      ∧ bounds_inv ts' w'
      ∧ within 1 ts w ts' w'
      ∧ (∀ x, x ∈ deref (TuringState.tape ts') w' →
              x ∈ deref (TuringState.tape ts) w ∨ writable tm x).
Proof.
  intros Hk Hc Hb.
  destruct (symbol_in_bounds ts w Hb) as (sym & _ & Hsym).
  destruct (TuringMachine.programm tm !! (TuringState.state ts, sym)) as [c|] eqn:Hl.
  - right.
    destruct (execute_command_step ts c w Hb (Hc _ _ Hl)
                (lookup_matches tm ts w sym c Hk Hsym Hl))
      as (ts' & w' & He & Hb' & Hw & Hx).
    exists ts', w'. split.
    { unfold TuringMachine.single_step, bind. by rewrite Hsym, Hl, He. }
    split; [done|]. split; [done|].
    intros x Hin. destruct (Hx x Hin) as [?|[->| ->]]; [by left| |].
    + right. by left.
    + right. right. by exists (TuringState.state ts, sym), c.
  - left. split; [|by exists sym].
    unfold TuringMachine.single_step, bind. by rewrite Hsym, Hl.
Qed.

Lemma bounds_inv_stdout ts h o o' :
  bounds_inv ts (World h o) → bounds_inv ts (World h o').
Proof. done. Qed.

Lemma run_loop_safe tm d fuel :
  well_keyed (TuringMachine.programm tm) →
  all_constructed (TuringMachine.programm tm) →
  ∀ ts w r w',
    bounds_inv ts w →
    TuringMachine.run_loop fuel tm d ts w = Some (r, w') →
    ∃ ts' sym,
      r = Ok ts' ∧ bounds_inv ts' w'
      ∧ TuringState.symbol ts' w' = (Ok sym, w')
      ∧ TuringMachine.programm tm !! (TuringState.state ts', sym) = None.
Proof.
  intros Hk Hc. induction fuel as [|fuel IH]; intros ts [h o] r w' Hb; [done|].
  cbn [TuringMachine.run_loop].
  destruct (trace_frame d ts h o) as [o' ->].
  apply (bounds_inv_stdout _ _ _ o') in Hb.
  destruct (single_step_in_bounds tm ts _ Hk Hc Hb)
    as [[-> (sym & Hsym & Hl)]|(ts1 & w1 & -> & Hb1 & _)].
  - intros [= <- <-]. by exists ts, sym.
  - by apply IH.
Qed.

(** X9: a run that cannot fail. With a well-keyed table of constructed
    commands (every table from [TuringMachine.parse] is one) and a tape
    that is not empty, [run] raises no exception at all: no [IndexError],
    no failed [assert], no mismatch error. When it returns, the state it
    stopped in is in bounds, and the table has no entry for the returned
    state and the symbol under the head. *)
Theorem run_never_raises tm tape start fuel d w :
  well_keyed (TuringMachine.programm tm) →
  all_constructed (TuringMachine.programm tm) →
  deref tape w ≠ [] →
  match TuringMachine.run fuel tm tape start d w with
  | Some (Raise e, _) => False
  | Some (Ok (l, s), w') =>
      ∃ ts_f sym,
        TuringState.tape ts_f = l ∧ TuringState.state ts_f = s
        ∧ bounds_inv ts_f w'
        ∧ TuringState.symbol ts_f w' = (Ok sym, w')
        ∧ TuringMachine.programm tm !! (s, sym) = None
  | None => True
  end.
Proof.
  intros Hk Hc Hne. unfold TuringMachine.run.
  assert (Hb : bounds_inv (TuringState.mk tape 0 0 start) w).
  { unfold bounds_inv. simpl. destruct (deref tape w); [done|]. simpl. lia. }
  destruct (TuringMachine.run_loop fuel tm d _ w) as [[r1 w1]|] eqn:Hl; [|done].
  destruct (run_loop_safe tm d fuel Hk Hc _ _ _ _ Hb Hl)
    as (ts' & sym & -> & Hb' & Hsym & Hnone).
  destruct w1 as [h1 o1].
  assert (Hsilent : ∀ o, TuringState.symbol ts' (World h1 o) = (Ok sym, World h1 o)).
  { intros o. destruct (silent_list_getitem (TuringState.tape ts')
                          (TuringState.position ts' + TuringState.offset ts') h1)
      as (r & h' & Hr).
    unfold TuringState.symbol in *. rewrite Hr in Hsym |- *.
    by injection Hsym as -> ->. }
  case_decide; simpl; exists ts', sym; repeat split; try done; apply Hb'.
Qed.

Lemma run_never_raises_witness :
  ∃ w', TuringMachine.run 5 doctest_machine 0%nat "Q1" 2 (world0 ["0"])
        = Some (Ok (1%nat, "Q2"), w').
Proof.
  destruct (parse_well_keyed _ _ doctest_machine_parsed) as [Hk Hc].
  pose proof (run_never_raises doctest_machine 0%nat "Q1" 5 2 (world0 ["0"])
                Hk Hc) as H.
  assert (Hne : deref 0%nat (world0 ["0"]) ≠ []) by discriminate.
  specialize (H Hne).
  destruct (TuringMachine.run 5 doctest_machine 0%nat "Q1" 2 (world0 ["0"]))
    as [[[[l s]|e] w']|] eqn:Hr.
  - exists w'. vm_compute in Hr. injection Hr as <- <- _. reflexivity.
  - destruct H.
  - vm_compute in Hr. discriminate.
Defined.

Lemma within_trans k ts w ts1 w1 ts2 w2 :
  within 1 ts w ts1 w1 → within k ts1 w1 ts2 w2 → within (k + 1) ts w ts2 w2.
Proof. unfold within. lia. Qed.

Lemma steps_in_bounds tm k s s' :
  well_keyed (TuringMachine.programm tm) →
  all_constructed (TuringMachine.programm tm) →
  steps tm k s s' →
  bounds_inv s.1 s.2 →
  bounds_inv s'.1 s'.2
  ∧ within (Z.of_nat k) s.1 s.2 s'.1 s'.2
  ∧ (∀ x, x ∈ deref (TuringState.tape s'.1) s'.2 →
          x ∈ deref (TuringState.tape s.1) s.2 ∨ writable tm x).
Proof.
  intros Hk Hc Hst. induction Hst as [s|n ts w ts1 w1 s' Hs Hst IH]; intros Hb.
  - split; [done|]. split; [unfold within; lia|]. auto.
  - simpl in *.
    destruct (single_step_in_bounds tm ts w Hk Hc Hb)
      as [[Hf _]|(ts' & w' & Ht & Hb1 & Hw1 & Hx1)]; [congruence|].
    rewrite Hs in Ht. injection Ht as <- <-.
    destruct (IH Hb1) as (Hb2 & Hw2 & Hx2).
    split; [done|]. split.
    + rewrite Nat2Z.inj_succ, <- Z.add_1_r. by eapply within_trans.
    + intros x Hx. destruct (Hx2 x Hx) as [Hin|?]; [|by right]. by apply Hx1.
Qed.

(** X10: how far a run can get in [k] steps. From a state in bounds, with
    a well-keyed table of constructed commands, [k] successful calls of
    [single_step] lead to a state that is in bounds, whose position is at
    most [k] from where it was, whose offset has grown by between 0 and
    [k], and whose tape has grown by at least the growth of the offset
    and by at most [k] cells: the tape never shrinks, and a step adds at
    most one cell. *)
Theorem steps_within tm k ts w ts' w' :
  well_keyed (TuringMachine.programm tm) →
  all_constructed (TuringMachine.programm tm) →
  bounds_inv ts w →
  steps tm k (ts, w) (ts', w') →
  bounds_inv ts' w' ∧ within (Z.of_nat k) ts w ts' w'.
Proof.
  intros Hk Hc Hb Hst.
  destruct (steps_in_bounds tm k _ _ Hk Hc Hst Hb) as (Hb' & Hw & _). done.
Qed.

Lemma steps_within_witness :
  within 1 (TuringState.mk 0%nat 0 0 "Q1") (world0 ["0"])
    (TuringState.mk 1%nat 1 0 "Q2") (World [["1"]; ["1"; "b"]] []).
Proof.
  destruct (parse_well_keyed _ _ doctest_machine_parsed) as [Hk Hc].
  assert (Hb : bounds_inv (TuringState.mk 0%nat 0 0 "Q1") (world0 ["0"]))
    by (unfold bounds_inv; simpl; lia).
  assert (Hst : steps doctest_machine 1
                  (TuringState.mk 0%nat 0 0 "Q1", world0 ["0"])
                  (TuringState.mk 1%nat 1 0 "Q2", World [["1"]; ["1"; "b"]] [])).
  { eapply steps_S; [vm_compute; reflexivity|apply steps_O]. }
  exact (proj2 (steps_within doctest_machine 1 _ _ _ _ Hk Hc Hb Hst)).
Defined.

(** The steps of a run do not depend on what has been printed. *)
Lemma steps_stdout tm k s s' :
  steps tm k s s' →
  ∀ o, stdout s'.2 = stdout s.2
       ∧ steps tm k (s.1, World (lists s.2) o) (s'.1, World (lists s'.2) o).
Proof.
  intros Hst. induction Hst as [[ts w]|n ts w ts1 w1 s' Hs Hst IH]; intros o; simpl.
  - split; [done|]. constructor.
  - destruct w as [h o0]. apply single_step_frame in Hs as [Ho Hs].
    destruct (IH o) as [Ho' IH']. simpl in *. split; [congruence|].
    eapply steps_S; [apply Hs|]. exact IH'.
Qed.

(** A returned loop went through some number of successful steps, seen
    on the store alone. *)
Lemma run_loop_reaches tm d fuel ts w ts' w' :
  TuringMachine.run_loop fuel tm d ts w = Some (Ok ts', w') →
  ∃ k, (k < fuel)%nat
       ∧ steps tm k (ts, World (lists w) []) (ts', World (lists w') []).
Proof.
  intros Hr. destruct w as [h o].
  pose proof (run_loop_debug_irrelevant tm fuel d 0 ts h o []) as Hd.
  rewrite Hr in Hd. simpl in Hd.
  destruct (TuringMachine.run_loop fuel tm 0 ts (World h [])) as [[r0 w0]|] eqn:H0;
    [|done].
  simpl in Hd. injection Hd as <- Hl.
  apply run_loop_steps in H0 as (k & Hk & Hst & _).
  exists k. split; [done|].
  destruct (steps_stdout _ _ _ _ Hst []) as [Ho Hst']. simpl in *.
  by rewrite Hl.
Qed.

(** X11: the alphabet of the returned tape. With a well-keyed table of
    constructed commands and a tape that is not empty, every cell of the
    tape that [run] returns is a cell of the tape passed in, the blank, or
    the [ret_symbol] of a table entry; the returned tape is not shorter
    than the tape passed in; and when all cells passed in are one
    character long, so are all cells returned. *)
Theorem run_alphabet tm tape start fuel d w l s w' :
  well_keyed (TuringMachine.programm tm) →
  all_constructed (TuringMachine.programm tm) →
  deref tape w ≠ [] →
  TuringMachine.run fuel tm tape start d w = Some (Ok (l, s), w') →
  (∀ x, x ∈ deref l w' → x ∈ deref tape w ∨ writable tm x)
  ∧ (length (deref tape w) ≤ length (deref l w'))%nat
  ∧ (Forall (λ x, len x = 1%nat) (deref tape w) →
     Forall (λ x, len x = 1%nat) (deref l w')).
Proof.
  intros Hk Hc Hne. unfold TuringMachine.run.
  destruct (TuringMachine.run_loop fuel tm d _ w) as [[[ts1|e] w1]|] eqn:Hl;
    [|done|done].
  intros Hr.
  assert (l = TuringState.tape ts1 ∧ lists w' = lists w1) as [-> Hw].
  { revert Hr. case_decide; intros [= <- _ <-]; done. }
  apply run_loop_reaches in Hl as (k & _ & Hst).
  assert (Hb : bounds_inv (TuringState.mk tape 0 0 start) (World (lists w) [])).
  { unfold bounds_inv, deref in *. simpl. destruct (lists w !!! tape); [done|].
    simpl. lia. }
  destruct (steps_in_bounds tm k _ _ Hk Hc Hst Hb) as (_ & Hwi & Hx).
  unfold within, deref in *. simpl in *. rewrite Hw.
  split; [exact Hx|]. split; [lia|].
  intros Hall. apply Forall_forall. intros x Hin.
  destruct (Hx x Hin) as [Hold|[->|(k0 & c & Hc0 & ->)]].
  - by eapply Forall_forall in Hall.
  - done.
  - apply Hc in Hc0. by apply constructed_fields in Hc0 as (_ & ? & _).
Qed.

Lemma run_alphabet_witness :
  TuringMachine.run 3 doctest_machine 0%nat "Q1" 0 (world0 ["0"])
  = Some (Ok (1%nat, "Q2"), World [["1"]; ["1"; "b"]] [])
  ∧ ("b" ∈ ["0"] ∨ writable doctest_machine "b").
Proof.
  destruct (parse_well_keyed _ _ doctest_machine_parsed) as [Hk Hc].
  assert (Hne : deref 0%nat (world0 ["0"]) ≠ []) by discriminate.
  assert (Hr : TuringMachine.run 3 doctest_machine 0%nat "Q1" 0 (world0 ["0"])
               = Some (Ok (1%nat, "Q2"), World [["1"]; ["1"; "b"]] []))
    by (vm_compute; reflexivity).
  split; [exact Hr|].
  apply (proj1 (run_alphabet doctest_machine 0%nat "Q1" 3 0 _ _ _ _ Hk Hc Hne Hr)).
  apply list_elem_of_lookup. by exists 1%nat.
Defined.

(** ** What [run] prints *)

Lemma run_loop_quiet tm d fuel :
  d < 2 →
  ∀ ts w r w',
    TuringMachine.run_loop fuel tm d ts w = Some (r, w') → stdout w' = stdout w.
Proof.
  intros Hd. induction fuel as [|fuel IH]; intros ts [h o] r w'; [done|].
  cbn [TuringMachine.run_loop]. rewrite decide_False by lia. unfold ret at 1.
  destruct (TuringMachine.single_step tm ts (World h o)) as [r1 w1] eqn:Hs.
  apply single_step_frame in Hs as [Ho _].
  destruct r1 as [[[] ts1]|e].
  - intros Hr. apply IH in Hr. simpl in *. congruence.
  - by intros [= <- <-].
  - by intros [= <- <-].
Qed.

Lemma rendering_stdout ts h o o' :
  rendering ts (World h o) = rendering ts (World h o').
Proof. done. Qed.

Lemma run_loop_trace tm d fuel :
  2 <= d →
  ∀ ts w ts' w',
    TuringMachine.run_loop fuel tm d ts w = Some (Ok ts', w') →
    ∃ rest, stdout w' = stdout w ++ rendering ts w :: rest
            ∧ (S (length rest) ≤ fuel)%nat
            ∧ last (rendering ts w :: rest) = Some (rendering ts' w')
            ∧ Forall (λ line, ∃ ts1 w1, line = rendering ts1 w1) rest.
Proof.
  intros Hd. induction fuel as [|fuel IH]; intros ts [h o] ts' w'; [done|].
  cbn [TuringMachine.run_loop]. rewrite decide_True by lia.
  unfold bind at 1, TuringState.str, print. simpl.
  fold (rendering ts (World h o)).
  destruct (TuringMachine.single_step tm ts _) as [r1 w1] eqn:Hs.
  pose proof (single_step_frame _ _ _ _ _ _ Hs) as [Ho _].
  destruct r1 as [[[] ts1]|e]; [| |done].
  - intros Hr. apply IH in Hr as (rest & Hr & Hlen & Hlast & Hall).
    exists (rendering ts1 w1 :: rest). simpl. split; [|split; [lia|split]].
    + rewrite Hr, Ho. by rewrite <- app_assoc.
    + exact Hlast.
    + constructor; [by eexists _, _|done].
  - apply single_step_false_unchanged in Hs as [-> ->].
    intros [= <- <-]. exists []. simpl.
    split; [done|]. split; [lia|]. split; [done|constructor].
Qed.

(** X12: what a returning [run] prints. With [debug_strength] below 1
    nothing is printed. With [debug_strength] 1 exactly one line is
    added, the closing line with the returned state and the items of the
    returned tape. With [debug_strength] 2 or more the output is a
    sequence of renderings of states, at most one per turn of the loop,
    followed by the closing line; the first rendering is that of the
    initial state on the tape passed in, and the last is that of the state
    the run stopped in, on the returned tape. *)
Theorem run_output fuel tm tape start d w l s w' :
  TuringMachine.run fuel tm tape start d w = Some (Ok (l, s), w') →
  (d < 1 → stdout w' = stdout w)
  ∧ (1 <= d < 2 → stdout w' = stdout w ++ [finished_line s (deref l w')])
  ∧ (2 <= d →
     ∃ rest ts_f,
       stdout w'
       = stdout w ++ rendering (TuringState.mk tape 0 0 start) w :: rest
           ++ [finished_line s (deref l w')]
       ∧ (S (length rest) ≤ fuel)%nat
       ∧ Forall (λ line, ∃ ts1 w1, line = rendering ts1 w1) rest
       ∧ TuringState.tape ts_f = l ∧ TuringState.state ts_f = s
       ∧ last (rendering (TuringState.mk tape 0 0 start) w :: rest)
         = Some (rendering ts_f w')).
Proof.
  unfold TuringMachine.run.
  destruct (TuringMachine.run_loop fuel tm d _ w) as [[[ts1|e] w1]|] eqn:Hl;
    [|done|done].
  destruct (decide (d >= 1)) as [H1|H1].
  - unfold bind, print, ret. simpl. intros [= <- <- <-]. simpl.
    split; [intros; lia|]. split.
    + intros Hd. apply run_loop_quiet in Hl; [|lia]. by rewrite Hl.
    + intros Hd. apply run_loop_trace in Hl as (rest & Hr & Hlen & Hlast & Hall);
        [|done].
      exists rest, ts1. split; [rewrite Hr; by rewrite <- app_assoc|].
      split; [done|]. split; [done|]. split; [done|]. split; [done|].
      rewrite Hlast. reflexivity.
  - unfold ret. intros [= <- <- <-].
    split; [|split; intros; lia].
    intros _. apply run_loop_quiet in Hl; [done|lia].
Qed.

Lemma run_output_witness :
  ∃ w',
    TuringMachine.run 3 doctest_machine 0%nat "Q1" 1 (world0 ["0"])
    = Some (Ok (1%nat, "Q2"), w')
    ∧ stdout w' = [finished_line "Q2" ["1"; "b"]].
Proof.
  assert (Hr : TuringMachine.run 3 doctest_machine 0%nat "Q1" 1 (world0 ["0"])
               = Some (Ok (1%nat, "Q2"),
                       World [["1"]; ["1"; "b"]] [finished_line "Q2" ["1"; "b"]]))
    by (vm_compute; reflexivity).
  eexists. split; [exact Hr|].
  destruct (run_output _ _ _ _ _ _ _ _ _ Hr) as (_ & H1 & _).
  rewrite H1 by lia. reflexivity.
Defined.

(** ** The rendering of a state *)

Lemma len_app a b : len (a +:+ b) = (len a + len b)%nat.
Proof. induction a as [|c a IH]; [done|]. rewrite app_String. simpl. by rewrite IH. Qed.

Lemma len_times_space n : len (times " " n) = Z.to_nat n.
Proof.
  unfold times. induction (Z.to_nat n) as [|k IH]; [done|].
  change (join (replicate (S k) " ")) with (" " +:+ join (replicate k " ")).
  rewrite len_app, IH. done.
Qed.

Lemma len_join_cells cells :
  Forall (λ x, len x = 1%nat) cells → len (join cells) = length cells.
Proof.
  induction 1 as [|x cells Hx _ IH]; [done|].
  change (join (x :: cells)) with (x +:+ join cells).
  rewrite len_app, Hx, IH. done.
Qed.

Lemma get_join_cells cells (i : nat) x :
  Forall (λ x, len x = 1%nat) cells →
  cells !! i = Some x →
  ∃ c, x = String c "" ∧ String.get i (join cells) = Some c.
Proof.
  intros Hall. revert i. induction Hall as [|y cells Hy _ IH]; intros i Hi; [done|].
  destruct y as [|c [|? ?]]; try done.
  change (join (String c "" :: cells)) with (String c (join cells)).
  destruct i as [|i]; simpl in *.
  - injection Hi as <-. by exists c.
  - by apply IH.
Qed.

(** X13: the caret of the rendering. For a state in bounds on a tape
    whose cells are one character long, [__str__] gives two lines: the
    cells written one after the other, as many characters as the tape has
    cells, and a line of as many spaces as the physical index of the head,
    the caret and the state. The character above the caret is the symbol
    under the head. *)
Theorem str_caret ts w :
  bounds_inv ts w →
  Forall (λ x, len x = 1%nat) (deref (TuringState.tape ts) w) →
  let cells := join (deref (TuringState.tape ts) w) in
  let pad := times " " (head ts) in
  TuringState.str ts w
  = (Ok (cells +:+ String "010" "" +:+ pad +:+ "^" +:+ TuringState.state ts), w)
  ∧ len cells = length (deref (TuringState.tape ts) w)
  ∧ len pad = Z.to_nat (head ts)
  ∧ ∃ c, String.get (len pad) cells = Some c
         ∧ TuringState.symbol ts w = (Ok (String c ""), w).
Proof.
  intros Hb Hall cells pad.
  destruct (symbol_in_bounds ts w Hb) as (x & Hx & Hsym).
  destruct (get_join_cells _ _ _ Hall Hx) as (c & -> & Hget).
  split; [done|]. split; [by apply len_join_cells|].
  split; [apply len_times_space|].
  exists c. unfold pad. rewrite len_times_space. done.
Qed.

(** ** The callers: one fresh list per run *)

Lemma run_state_store_independent tm start fuel d1 d2 t1 t2 w1 w2 :
  deref t1 w1 = deref t2 w2 →
  state_of (TuringMachine.run fuel tm t1 start d1 w1)
  = state_of (TuringMachine.run fuel tm t2 start d2 w2).
Proof.
  intros Hd. unfold TuringMachine.run.
  pose proof (run_loop_view tm fuel d1 d2 (TuringState.mk t1 0 0 start) w1
                (TuringState.mk t2 0 0 start) w2) as Hl.
  unfold view in Hl. simpl in Hl. rewrite Hd in Hl. specialize (Hl eq_refl).
  destruct (TuringMachine.run_loop fuel tm d1 _ w1) as [[[a1|e1] w1']|];
    destruct (TuringMachine.run_loop fuel tm d2 _ w2) as [[[a2|e2] w2']|];
    simpl in Hl; try discriminate; [| |done].
  - assert (view a1 w1' = view a2 w2') as Hv by congruence.
    unfold view in Hv. injection Hv as _ _ _ Hs.
    do 2 case_decide; simpl; by rewrite Hs.
  - simpl. congruence.
Qed.

Lemma run_quiet fuel tm tape start w r w' :
  TuringMachine.run fuel tm tape start 0 w = Some (r, w') →
  stdout w' = stdout w
  ∧ (length (lists w) ≤ length (lists w'))%nat
  ∧ (∀ l, l ≠ tape → (l < length (lists w))%nat → deref l w' = deref l w).
Proof.
  unfold TuringMachine.run.
  destruct (TuringMachine.run_loop fuel tm 0 _ w) as [[r1 w1]|] eqn:Hl; [|done].
  pose proof (run_loop_quiet tm 0 fuel ltac:(lia) _ _ _ _ Hl) as Ho.
  destruct (run_loop_store tm 0 (lists w) tape fuel
              (TuringState.mk tape 0 0 start) w r1 w1
              (or_introl eq_refl) (le_n _) (λ _ _ _, eq_refl) Hl)
    as (Hlen & Hfr & _).
  destruct r1 as [ts1|e].
  - rewrite decide_False by lia. unfold ret. intros [= <- <-].
    split; [done|]. split; [done|]. intros l ? ?. by apply Hfr.
  - intros [= <- <-]. split; [done|]. split; [done|]. intros l ? ?. by apply Hfr.
Qed.

(** The body of the loop in any world, against the body run alone: same
    outcome, same text printed, and the lists that were there are left as
    they were. *)
Lemma loop_body_alone fuel machine s w :
  match Sheet_5.loop_body fuel machine s w, alone fuel machine s with
  | None, None => True
  | Some (o, w'), Some (o', out) =>
      o = o' ∧ stdout w' = stdout w ++ out
      ∧ (length (lists w) ≤ length (lists w'))%nat
      ∧ (∀ l, (l < length (lists w))%nat → deref l w' = deref l w)
  | _, _ => False
  end.
Proof.
  unfold alone, Sheet_5.loop_body, list_of_str, list_new. simpl.
  pose proof (run_state_store_independent machine START_STATE fuel 0 0
                (length (lists w)) 0%nat
                (World (lists w ++ [chars s]) (stdout w)) (World [chars s] []))
    as Hst.
  rewrite deref_new in Hst. specialize (Hst eq_refl).
  destruct (TuringMachine.run fuel machine (length (lists w)) START_STATE 0 _)
    as [[r1 w1]|] eqn:H1;
    destruct (TuringMachine.run fuel machine 0%nat START_STATE 0 _)
    as [[r2 w2]|] eqn:H2; simpl in Hst.
  - apply run_quiet in H1 as (Ho1 & Hlen1 & Hfr1).
    apply run_quiet in H2 as (Ho2 & _ & _). simpl in *.
    rewrite length_app in Hlen1, Hfr1. simpl in *.
    assert (Hfr : ∀ l, (l < length (lists w))%nat → deref l w1 = deref l w).
    { intros l Hl. rewrite Hfr1 by lia. by apply (deref_app_old l _ (lists w)). }
    destruct r1 as [[l1 s1]|e1], r2 as [[l2 s2]|e2]; simpl in Hst;
      try discriminate.
    + injection Hst as ->. unfold print. simpl.
      rewrite Ho1, Ho2. repeat split; try done. lia.
    + injection Hst as ->. rewrite Ho1, Ho2, app_nil_r.
      repeat split; try done. lia.
  - by destruct r1 as [[? ?]|?].
  - by destruct r2 as [[? ?]|?].
  - done.
Qed.

(** X14: the runs of the loop of [ex1] and [ex3] do not influence each
    other. Each turn makes a new list with [list(tape_str)], so the loop
    over the inputs has the outcome and prints the text of the bodies run
    alone, each in a store of its own, one after the other (up to the
    first that raises or does not return); and the loop leaves every list
    that existed before it as it was. *)
Theorem loop_runs_alone fuel machine tape_strs w :
  match Sheet_5.loop fuel machine tape_strs w,
        chain (alone fuel machine <$> tape_strs) with
  | None, None => True
  | Some (o, w'), Some (o', out) =>
      o = o' ∧ stdout w' = stdout w ++ out
      ∧ (∀ l, (l < length (lists w))%nat → deref l w' = deref l w)
  | _, _ => False
  end.
Proof.
  revert w. induction tape_strs as [|s strs IH]; intros w.
  - simpl. split; [done|]. split; [by rewrite app_nil_r|done].
  - rewrite fmap_cons. cbn [Sheet_5.loop chain].
    pose proof (loop_body_alone fuel machine s w) as Hb.
    destruct (Sheet_5.loop_body fuel machine s w) as [[[[]|e] w1]|];
      destruct (alone fuel machine s) as [[[[]|e'] out1]|]; try done.
    + destruct Hb as (_ & Ho & Hlen & Hfr). specialize (IH w1).
      destruct (Sheet_5.loop fuel machine strs w1) as [[o2 w2]|];
        destruct (chain (alone fuel machine <$> strs)) as [[o2' out2]|]; try done.
      simpl in IH. destruct IH as (-> & Ho2 & Hfr2). split; [done|]. split.
      * rewrite Ho2, Ho. by rewrite <- app_assoc.
      * intros l Hl. rewrite Hfr2 by lia. by apply Hfr.
    + by destruct Hb as ([= ] & _).
    + by destruct Hb as ([= ] & _).
    + destruct Hb as ([= ->] & Ho & _ & Hfr). done.
Qed.

Lemma chars_nonempty s : s ≠ "" → chars s ≠ [].
Proof. by destruct s. Qed.

Lemma run_returns_or_runs_on tm tape start fuel d w r w' :
  well_keyed (TuringMachine.programm tm) →
  all_constructed (TuringMachine.programm tm) →
  deref tape w ≠ [] →
  TuringMachine.run fuel tm tape start d w = Some (r, w') →
  ∃ l s, r = Ok (l, s).
Proof.
  intros Hk Hc Hne. unfold TuringMachine.run.
  assert (Hb : bounds_inv (TuringState.mk tape 0 0 start) w).
  { unfold bounds_inv. simpl. destruct (deref tape w); [done|]. simpl. lia. }
  destruct (TuringMachine.run_loop fuel tm d _ w) as [[r1 w1]|] eqn:Hl; [|done].
  destruct (run_loop_safe tm d fuel Hk Hc _ _ _ _ Hb Hl) as (ts' & sym & -> & _).
  case_decide; intros [= <- _]; by eexists _, _.
Qed.

Lemma loop_safe fuel machine tape_strs :
  well_keyed (TuringMachine.programm machine) →
  all_constructed (TuringMachine.programm machine) →
  Forall (λ s, s ≠ "") tape_strs →
  ∀ w,
    match Sheet_5.loop fuel machine tape_strs w with
    | Some (Raise e, _) => False
    | Some (Ok _, w') =>
        ∃ states,
          length states = length tape_strs
          ∧ stdout w' = stdout w ++ zip_with Sheet_5.halted_line tape_strs states
    | None => True
    end.
Proof.
  intros Hk Hc Hall. induction Hall as [|s strs Hs _ IH]; intros w.
  - simpl. exists []. by rewrite app_nil_r.
  - cbn [Sheet_5.loop]. unfold Sheet_5.loop_body, list_of_str, list_new. simpl.
    destruct (TuringMachine.run fuel machine (length (lists w)) START_STATE 0 _)
      as [[r1 w1]|] eqn:Hr; [|done].
    pose proof Hr as Hq. apply run_quiet in Hq as (Ho & _ & _).
    apply run_returns_or_runs_on in Hr as (l & st & ->); [|done|done|].
    2:{ rewrite deref_new. by apply chars_nonempty. }
    unfold print. simpl.
    specialize (IH (World (lists w1) (stdout w1 ++ [Sheet_5.halted_line s st]))).
    destruct (Sheet_5.loop fuel machine strs _) as [[[[]|e] w2]|]; [|done|done].
    destruct IH as (states & Hlen & Hout). simpl in *.
    exists (st :: states). simpl. split; [by rewrite Hlen|].
    rewrite Hout, Ho. by rewrite <- app_assoc.
Qed.

(** X15: what [ex1] and [ex3] can do, given the text of their program
    file. If the text does not parse, the parse error comes out and
    nothing is printed or changed. If it parses, no exception is raised
    (every input is a non-empty string), and when the function returns it
    has printed exactly four lines, one per input in the order of the
    source, each naming the input and a final state. *)
Theorem ex1_ex3_outcomes fuel text w :
  match Sheet_5.ex1 fuel text w with
  | Some (Raise e, w') => TuringMachine.parse text = Raise e ∧ w' = w
  | Some (Ok _, w') =>
      ∃ s1 s2 s3 s4,
        stdout w'
        = stdout w ++ [Sheet_5.halted_line "11" s1; Sheet_5.halted_line "1010" s2;
                       Sheet_5.halted_line "1001" s3;
                       Sheet_5.halted_line "100101" s4]
  | None => ∃ machine, TuringMachine.parse text = Ok machine
  end
  ∧ match Sheet_5.ex3 fuel text w with
    | Some (Raise e, w') => TuringMachine.parse text = Raise e ∧ w' = w
    | Some (Ok _, w') =>
        ∃ s1 s2 s3 s4,
          stdout w'
          = stdout w ++ [Sheet_5.halted_line "11" s1;
                         Sheet_5.halted_line "00000111111" s2;
                         Sheet_5.halted_line "000000" s3;
                         Sheet_5.halted_line "00011110" s4]
    | None => ∃ machine, TuringMachine.parse text = Ok machine
    end.
Proof.
  unfold Sheet_5.ex1, Sheet_5.ex3.
  destruct (TuringMachine.parse text) as [machine|e] eqn:Hp; [|done].
  apply parse_well_keyed in Hp as [Hk Hc].
  split.
  - pose proof (loop_safe fuel machine ["11"; "1010"; "1001"; "100101"] Hk Hc) as H.
    specialize (H ltac:(repeat constructor; discriminate) w).
    destruct (Sheet_5.loop fuel machine _ w) as [[[[]|e] w']|];
      [|done|by exists machine].
    destruct H as (states & Hlen & Hout).
    destruct states as [|s1 [|s2 [|s3 [|s4 [|? ?]]]]]; try discriminate.
    by exists s1, s2, s3, s4.
  - pose proof (loop_safe fuel machine
                  ["11"; "00000111111"; "000000"; "00011110"] Hk Hc) as H.
    specialize (H ltac:(repeat constructor; discriminate) w).
    destruct (Sheet_5.loop fuel machine _ w) as [[[[]|e] w']|];
      [|done|by exists machine].
    destruct H as (states & Hlen & Hout).
    destruct states as [|s1 [|s2 [|s3 [|s4 [|? ?]]]]]; try discriminate.
    by exists s1, s2, s3, s4.
Qed.

(** ** When [execute_command] raises *)

Lemma symbol_Ok_index ts w sym :
  TuringState.symbol ts w = (Ok sym, w) →
  ∃ j, norm_index (length (deref (TuringState.tape ts) w))
         (TuringState.position ts + TuringState.offset ts) = Some j.
Proof.
  unfold TuringState.symbol, list_getitem.
  destruct (norm_index _ _) as [j|]; [by exists j|discriminate].
Qed.

(** X16: a call of [execute_command] that raises. If the exception is not
    the failed [assert], the precondition did not hold (the command is
    for another state or another symbol, or there is no cell under the
    head) and nothing was written: the world is as before the call. The
    failed [assert] comes only after the write, on a matching command,
    and never on a state in bounds with a constructed command. *)
Theorem execute_command_raises ts c w e w' :
  TuringState.execute_command ts c w = (Raise e, w') →
  (e ≠ AssertionError → w' = w ∧ ¬ matches c ts w)
  ∧ (e = AssertionError →
     matches c ts w ∧ ¬ (bounds_inv ts w ∧ constructed c)).
Proof.
  intros He.
  assert (Hnot : matches c ts w → e = AssertionError).
  { intros Hm. pose proof (execute_command_no_mismatch ts c w) as Hv.
    destruct Hm as [Hst Hsym]. pose proof (symbol_Ok_index _ _ _ Hsym) as [j Hj].
    unfold TuringState.execute_command in He.
    rewrite decide_True in He by done.
    unfold bind at 1 in He. rewrite Hsym in He. rewrite decide_True in He by done.
    unfold bind, list_setitem, list_items, list_new, list_len, ret, raise in He.
    rewrite Hj in He. simpl in He.
    repeat (case_decide; simpl in He); congruence. }
  assert (Hmatch : e = AssertionError → matches c ts w).
  { intros ->. unfold TuringState.execute_command in He.
    case_decide as Hst; [|discriminate].
    unfold bind at 1 in He.
    destruct (TuringState.symbol ts w) as [[sym|e0] w1] eqn:Hsym.
    - apply symbol_world in Hsym as Hw. subst w1.
      case_decide as Hs; [by subst|].
      unfold bind, raise in He. rewrite Hsym in He. discriminate.
    - unfold TuringState.symbol, list_getitem in Hsym.
      destruct (norm_index _ _) as [j|]; [destruct (_ !! j)|]; congruence. }
  split.
  - intros Hne. split; [|intros Hm; by apply Hne, Hnot].
    unfold TuringState.execute_command in He.
    case_decide as Hst; [|by injection He as _ <-].
    unfold bind at 1 in He.
    destruct (TuringState.symbol ts w) as [[sym|e0] w1] eqn:Hsym;
      apply symbol_world in Hsym as Hw; subst w1; [|by injection He as _ <-].
    case_decide as Hs.
    + exfalso. apply Hne, Hnot. by subst.
    + unfold bind, raise in He. rewrite Hsym in He. by injection He as _ <-.
  - intros ->. split; [by apply Hmatch|].
    intros [Hb Hc].
    destruct (execute_command_returns ts c w Hb Hc (Hmatch eq_refl))
      as (ts' & w0 & Hok). congruence.
Qed.

Lemma execute_command_raises_witness :
  TuringState.execute_command (TuringState.mk 0%nat 0 0 "Q1")
    (TuringCommand.mk "Q2" "0" "Q3" "1" Move.R) (world0 ["0"; "1"])
  = (Raise (ValueError "Command requires state Q2, but current state is Q1."),
     world0 ["0"; "1"])
  ∧ ¬ matches (TuringCommand.mk "Q2" "0" "Q3" "1" Move.R)
        (TuringState.mk 0%nat 0 0 "Q1") (world0 ["0"; "1"]).
Proof.
  assert (He : TuringState.execute_command (TuringState.mk 0%nat 0 0 "Q1")
                 (TuringCommand.mk "Q2" "0" "Q3" "1" Move.R) (world0 ["0"; "1"])
               = (Raise (ValueError "Command requires state Q2, but current state is Q1."),
                  world0 ["0"; "1"]))
    by (vm_compute; reflexivity).
  split; [exact He|].
  destruct (execute_command_raises _ _ _ _ _ He) as [Hv _].
  apply Hv. discriminate.
Defined.

(** ** The further theorems at concrete inputs *)

Lemma run_store_frame_witness :
  ∃ w',
    TuringMachine.run 3 doctest_machine 1%nat "Q1" 0 (World [["keep"]; ["0"]] [])
    = Some (Ok (2%nat, "Q2"), w')
    ∧ deref 0%nat w' = ["keep"].
Proof.
  assert (Hr : TuringMachine.run 3 doctest_machine 1%nat "Q1" 0
                 (World [["keep"]; ["0"]] [])
               = Some (Ok (2%nat, "Q2"), World [["keep"]; ["1"]; ["1"; "b"]] []))
    by (vm_compute; reflexivity).
  eexists. split; [exact Hr|].
  destruct (run_store_frame _ _ _ _ _ _ _ _ Hr) as (_ & Hfr & _).
  rewrite (Hfr 0%nat); [reflexivity|discriminate|simpl; lia].
Defined.

Lemma str_caret_witness :
  TuringState.str (TuringState.mk 0%nat (-1) 3 "Q1") (world0 ["0"; "1"; "b"])
  = (Ok ("01b" +:+ String "010" "" +:+ "  " +:+ "^" +:+ "Q1"), world0 ["0"; "1"; "b"])
  ∧ ∃ c, String.get 2 "01b" = Some c
         ∧ TuringState.symbol (TuringState.mk 0%nat (-1) 3 "Q1")
             (world0 ["0"; "1"; "b"])
           = (Ok (String c ""), world0 ["0"; "1"; "b"]).
Proof.
  assert (Hb : bounds_inv (TuringState.mk 0%nat (-1) 3 "Q1") (world0 ["0"; "1"; "b"]))
    by (unfold bounds_inv; simpl; lia).
  assert (Hall : Forall (λ x, len x = 1%nat)
                   (deref 0%nat (world0 ["0"; "1"; "b"])))
    by (repeat constructor).
  destruct (str_caret _ _ Hb Hall) as (Hs & _ & _ & c & Hg & Hsym).
  split; [exact Hs|]. exists c. split; [exact Hg|exact Hsym].
Defined.

(** ** The test [ex1_div_three] *)

Lemma bits_nonempty p : bits p ≠ "".
Proof.
  destruct p as [p|p|]; simpl; [| |done];
    destruct (bits p); rewrite ?app_String; discriminate.
Qed.

Lemma format_b_nonempty c : format_b c ≠ "".
Proof. destruct c; [done|apply bits_nonempty]. Qed.

Lemma elem_of_range c n : c ∈ range n ↔ (c < N.of_nat n)%N.
Proof.
  unfold range. rewrite list_elem_of_fmap. split.
  - intros (k & -> & Hk). apply elem_of_seq in Hk. lia.
  - intros Hc. exists (N.to_nat c). split; [lia|]. apply elem_of_seq. lia.
Qed.

Lemma div_three_loop_spec fuel machine :
  well_keyed (TuringMachine.programm machine) →
  all_constructed (TuringMachine.programm machine) →
  ∀ cs w,
    match Sheet_5.div_three_loop fuel machine cs w with
    | Some (Raise e, w') => e = AssertionError ∧ stdout w' = stdout w
    | Some (Ok _, w') =>
        stdout w' = stdout w
        ∧ ∀ c, c ∈ cs →
            state_of (TuringMachine.run fuel machine 0%nat START_STATE 0
                        (World [chars (format_b c)] []))
            = Some (Ok (if decide (c `mod` 3 = 0)%N then "Qak" else "Qab"))
    | None => True
    end.
Proof.
  intros Hk Hc. induction cs as [|c cs IH]; intros w.
  - simpl. split; [done|]. intros c Hin. by apply elem_of_nil in Hin.
  - cbn [Sheet_5.div_three_loop].
    unfold Sheet_5.div_three_body, list_of_str, list_new. simpl.
    pose proof (run_state_store_independent machine START_STATE fuel 0 0
                  (length (lists w)) 0%nat
                  (World (lists w ++ [chars (format_b c)]) (stdout w))
                  (World [chars (format_b c)] [])) as Hst.
    rewrite deref_new in Hst. specialize (Hst eq_refl).
    destruct (TuringMachine.run fuel machine (length (lists w)) START_STATE 0 _)
      as [[r1 w1]|] eqn:Hr; [|done].
    pose proof Hr as Hq. apply run_quiet in Hq as (Ho & _ & _). simpl in Ho.
    apply run_returns_or_runs_on in Hr as (l & st & ->); [|done|done|].
    2:{ rewrite deref_new. apply chars_nonempty, format_b_nonempty. }
    simpl in Hst.
    destruct (decide (c `mod` 3 = 0)%N) as [H3|H3];
      (destruct (decide (st = _)) as [Hs|Hs]; [|simpl; by split]);
      specialize (IH w1);
      (destruct (Sheet_5.div_three_loop fuel machine cs w1) as [[[[]|e] w2]|];
         [|by rewrite <- Ho|done]);
      destruct IH as [Ho2 Hall]; (split; [congruence|]);
      intros c0 Hin; (apply elem_of_cons in Hin as [->|Hin]; [|by apply Hall]);
      rewrite <- Hst, Hs.
    + by rewrite decide_True.
    + by rewrite decide_False.
Qed.

(** X17: what the test [ex1_div_three] establishes, given the text of the
    program file. If the text does not parse, the parse error comes out.
    If it parses, the only exception the test can raise is the failed
    [assert], and then nothing has been printed. When the test returns,
    it has printed its one line of success, and for every [c] below 1000
    a run on the binary digits of [c], in a list of its own, returns
    state [Qak] when 3 divides [c] and [Qab] when it does not. *)
Theorem ex1_div_three_outcomes fuel text w :
  match Sheet_5.ex1_div_three fuel text w with
  | Some (Raise e, w') =>
      (TuringMachine.parse text = Raise e ∧ w' = w)
      ∨ (e = AssertionError ∧ stdout w' = stdout w
         ∧ ∃ machine, TuringMachine.parse text = Ok machine)
  | Some (Ok _, w') =>
      ∃ machine,
        TuringMachine.parse text = Ok machine
        ∧ stdout w' = stdout w ++ ["Test successfully completed."]
        ∧ ∀ c, (c < 1000)%N →
            state_of (TuringMachine.run fuel machine 0%nat START_STATE 0
                        (World [chars (format_b c)] []))
            = Some (Ok (if decide (c `mod` 3 = 0)%N then "Qak" else "Qab"))
  | None => ∃ machine, TuringMachine.parse text = Ok machine
  end.
Proof.
  unfold Sheet_5.ex1_div_three.
  destruct (TuringMachine.parse text) as [machine|e] eqn:Hp; [|by left].
  apply parse_well_keyed in Hp as Hinv. destruct Hinv as [Hk Hc].
  pose proof (div_three_loop_spec fuel machine Hk Hc (range 1000) w) as H.
  destruct (Sheet_5.div_three_loop fuel machine (range 1000) w)
    as [[[[]|e] w1]|]; [| |by exists machine].
  - destruct H as [Ho Hall]. unfold print. simpl. exists machine.
    split; [done|]. split; [by rewrite Ho|].
    intros c Hc'. apply Hall. by apply elem_of_range.
  - destruct H as [-> Ho]. right. split; [done|]. split; [done|]. by exists machine.
Qed.

(** ** The script [main.py] and [ex2] *)

(** X18: what the script [main.py] and [ex2] can do, given the text of
    their program file. Each raises only if the text does not parse (the
    parse error, with nothing printed or changed). Otherwise, when it
    returns, [main.py] (debug level 1) has printed exactly one line, the
    closing line with the final state and tape, and [ex2] (debug level 2)
    has printed the rendering of its input [010011] with the caret in
    column 0 and state [Q0] first, and the closing line last. *)
Theorem main_ex2_outcomes fuel text w :
  match Main.main fuel text w with
  | Some (Raise e, w') => TuringMachine.parse text = Raise e ∧ w' = w
  | Some (Ok _, w') =>
      ∃ s tape, stdout w' = stdout w ++ [finished_line s tape]
  | None => ∃ machine, TuringMachine.parse text = Ok machine
  end
  ∧ match Sheet_5.ex2 fuel text w with
    | Some (Raise e, w') => TuringMachine.parse text = Raise e ∧ w' = w
    | Some (Ok _, w') =>
        ∃ rest s tape,
          stdout w'
          = stdout w ++ ("010011" +:+ String "010" "" +:+ "^Q0") :: rest
              ++ [finished_line s tape]
    | None => ∃ machine, TuringMachine.parse text = Ok machine
    end.
Proof.
  unfold Main.main, Sheet_5.ex2, list_of_str, list_new. simpl.
  destruct (TuringMachine.parse text) as [machine|e] eqn:Hp; [|done].
  apply parse_well_keyed in Hp as [Hk Hc].
  split.
  - destruct (TuringMachine.run fuel machine (length (lists w)) START_STATE 1 _)
      as [[r1 w1]|] eqn:Hr; [|by exists machine].
    pose proof Hr as Hr'.
    apply run_returns_or_runs_on in Hr' as (l & st & ->); [|done|done|].
    2:{ by rewrite deref_new. }
    unfold TuringMachine.run in Hr.
    destruct (TuringMachine.run_loop fuel machine 1 _ _) as [[[ts1|e] w2]|] eqn:Hl;
      [|done|done].
    apply run_loop_quiet in Hl; [|lia]. rewrite decide_True in Hr by lia.
    unfold bind, print, ret in Hr. simpl in Hr. injection Hr as <- <- <-.
    eexists _, _. simpl. by rewrite Hl.
  - destruct (TuringMachine.run fuel machine (length (lists w)) START_STATE 2 _)
      as [[r1 w1]|] eqn:Hr; [|by exists machine].
    pose proof Hr as Hr'.
    apply run_returns_or_runs_on in Hr' as (l & st & ->); [|done|done|].
    2:{ by rewrite deref_new. }
    unfold TuringMachine.run in Hr.
    destruct (TuringMachine.run_loop fuel machine 2 _ _) as [[[ts1|e] w2]|] eqn:Hl;
      [|done|done].
    apply run_loop_trace in Hl as (rest & Ho & _); [|lia].
    rewrite decide_True in Hr by lia.
    unfold bind, print, ret in Hr. simpl in Hr. injection Hr as <- <- <-.
    exists rest. eexists _, _. simpl. rewrite Ho. simpl.
    rewrite <- app_assoc. simpl. f_equal. f_equal.
    unfold rendering. simpl. rewrite deref_new. reflexivity.
Qed.
